(** * Serial image capture: frame ingestion, decoding and hand-off

  A shallow embedding of [serial-image-capture.py]: the receive loop of
  [ImageRxTask.run] (byte scanner, framer and the two image decoders), the
  lock-based hand-off between [GUI.update_image] and [GUI.refresh_image],
  and [ImageRxTask.connect].

  Python [bytes] are lists of [ascii] (one 8-bit character per byte),
  Python integers are [N], and a Python call that may raise returns a
  [result].  The three libraries the script calls into ([base64], Pillow's
  [Image], pyserial's [Serial]) and [threading.Lock] are modelled by small
  executable definitions in their own modules. *)

From Stdlib Require Import NArith ZArith Ascii String Bool Arith Lia List.
Import ListNotations.

(** * Python values *)

Module Py.

Definition bytes := list ascii.

(** The exceptions that occur in the script and in the library calls it
    makes. *)
Inductive exn :=
| BinasciiError
| IndexError
| ValueError
| UnboundLocalError
| RuntimeError
| SerialException
| UnidentifiedImageError
| AttributeError.

Inductive result (A : Type) :=
| Ok (a : A)
| Raise (e : exn).
Arguments Ok {A} a.
Arguments Raise {A} e.

Definition is_ok {A} (r : result A) : bool :=
  match r with Ok _ => true | Raise _ => false end.

(** [b"..."] literals. *)
Definition b (s : string) : bytes := list_ascii_of_string s.

Definition byte (n : N) : ascii := ascii_of_N n.

(** [x == y] on bytes. *)
Fixpoint bytes_eqb (x y : bytes) : bool :=
  match x, y with
  | [], [] => true
  | c :: x', d :: y' => Ascii.eqb c d && bytes_eqb x' y'
  | _, _ => false
  end.

(** [s[i]] for a non-negative index. *)
Definition index (s : bytes) (i : nat) : result N :=
  match nth_error s i with
  | Some c => Ok (N_of_ascii c)
  | None => Raise IndexError
  end.

(** [s[-1]]. *)
Definition index_last (s : bytes) : result N :=
  match s with
  | [] => Raise IndexError
  | c :: r => Ok (N_of_ascii (last r c))
  end.

(** [s[i:j]] for non-negative [i <= j]; slicing never raises. *)
Definition slice (s : bytes) (i j : nat) : bytes :=
  firstn (j - i) (skipn i s).

(** [s[i:]]. *)
Definition slice_from (s : bytes) (i : nat) : bytes := skipn i s.

(** [s[:-k]]: everything but the last [k] bytes, empty when [s] is
    shorter than [k]. *)
Definition slice_to_neg (s : bytes) (k : nat) : bytes :=
  firstn (length s - k) s.

(** [int.from_bytes(s, 'little')]. *)
Fixpoint int_from_bytes_little (s : bytes) : N :=
  match s with
  | [] => 0
  | c :: r => N_of_ascii c + 256 * int_from_bytes_little r
  end.

(** Whether [s.decode("utf-8")] succeeds: every character is one byte
    below 80, or a lead byte C2..F4 followed by the continuation bytes
    its length asks for, without overlong forms, surrogates or code points
    above 10FFFF. *)
Definition continuation (x : N) : bool := (128 <=? x)%N && (x <=? 191)%N.

Fixpoint decodes_utf8 (s : bytes) : bool :=
  match s with
  | [] => true
  | c0 :: r0 =>
      let b0 := N_of_ascii c0 in
      if (b0 <=? 127)%N then decodes_utf8 r0
      else
        match r0 with
        | [] => false
        | c1 :: r1 =>
            let b1 := N_of_ascii c1 in
            if ((194 <=? b0) && (b0 <=? 223))%N
            then continuation b1 && decodes_utf8 r1
            else
              match r1 with
              | [] => false
              | c2 :: r2 =>
                  let b2 := N_of_ascii c2 in
                  if ((224 <=? b0) && (b0 <=? 239))%N
                  then
                    (if (b0 =? 224)%N then ((160 <=? b1) && (b1 <=? 191))%N
                     else if (b0 =? 237)%N then ((128 <=? b1) && (b1 <=? 159))%N
                     else continuation b1)
                    && continuation b2 && decodes_utf8 r2
                  else
                    match r2 with
                    | [] => false
                    | c3 :: r3 =>
                        let b3 := N_of_ascii c3 in
                        if ((240 <=? b0) && (b0 <=? 244))%N
                        then
                          (if (b0 =? 240)%N then ((144 <=? b1) && (b1 <=? 191))%N
                           else if (b0 =? 244)%N then ((128 <=? b1) && (b1 <=? 143))%N
                           else continuation b1)
                          && continuation b2 && continuation b3
                          && decodes_utf8 r3
                        else false
                    end
              end
        end
  end.

End Py.
Import Py.

(** * [base64]

    Python's [base64] module is not part of the repository; this is a
    model of [b64encode] and of [b64decode] as CPython implements them. *)

Module Base64.

(** The character of a 6-bit value in the standard alphabet. *)
Definition b64_char (v : N) : ascii :=
  if (v <? 26)%N then byte (65 + v)
  else if (v <? 52)%N then byte (97 + (v - 26))
  else if (v <? 62)%N then byte (48 + (v - 52))
  else if (v =? 62)%N then "+"%char
  else "/"%char.

(** The 6-bit value of a character, [None] outside the alphabet. *)
Definition b64_index (c : ascii) : option N :=
  let n := N_of_ascii c in
  if ((65 <=? n) && (n <=? 90))%N then Some (n - 65)%N
  else if ((97 <=? n) && (n <=? 122))%N then Some (n - 97 + 26)%N
  else if ((48 <=? n) && (n <=? 57))%N then Some (n - 48 + 52)%N
  else if (n =? 43)%N then Some 62%N
  else if (n =? 47)%N then Some 63%N
  else None.

Definition pad : ascii := "="%char.

(** [base64.b64encode]: three bytes give four characters, a final group
    of one or two bytes is padded with [=]. *)
Fixpoint b64encode (s : bytes) : bytes :=
  match s with
  | [] => []
  | [x] =>
      let x := N_of_ascii x in
      [b64_char (N.shiftr x 2); b64_char (N.shiftl (N.land x 3) 4); pad; pad]
  | [x; y] =>
      let x := N_of_ascii x in
      let y := N_of_ascii y in
      [b64_char (N.shiftr x 2);
       b64_char (N.lor (N.shiftl (N.land x 3) 4) (N.shiftr y 4));
       b64_char (N.shiftl (N.land y 15) 2); pad]
  | x :: y :: z :: rest =>
      let x := N_of_ascii x in
      let y := N_of_ascii y in
      let z := N_of_ascii z in
      b64_char (N.shiftr x 2)
      :: b64_char (N.lor (N.shiftl (N.land x 3) 4) (N.shiftr y 4))
      :: b64_char (N.lor (N.shiftl (N.land y 15) 2) (N.shiftr z 6))
      :: b64_char (N.land z 63)
      :: b64encode rest
  end.

Definition emit (c : N) (r : result bytes) : result bytes :=
  match r with
  | Ok l => Ok (byte c :: l)
  | Raise e => Raise e
  end.

(** The decoding loop of [binascii.a2b_base64] in its default,
    non-strict mode: characters outside the alphabet are skipped, a
    complete run of padding after at least two characters of a quad ends
    the input, and an incomplete quad at the end of the input raises
    [binascii.Error].  [quad_pos] counts the characters of the current
    quad, [leftchar] holds the bits not yet written. *)
Fixpoint a2b_base64 (s : bytes) (quad_pos leftchar pads : N) : result bytes :=
  match s with
  | [] => if (quad_pos =? 0)%N then Ok [] else Raise BinasciiError
  | ch :: rest =>
      if Ascii.eqb ch pad then
        if ((2 <=? quad_pos) && (4 <=? quad_pos + (pads + 1)))%N then Ok []
        else a2b_base64 rest quad_pos leftchar
               (if (2 <=? quad_pos)%N then pads + 1 else pads)%N
      else
        match b64_index ch with
        | None => a2b_base64 rest quad_pos leftchar pads
        | Some v =>
            match quad_pos with
            | 0%N => a2b_base64 rest 1 v 0
            | 1%N =>
                emit (N.lor (N.shiftl leftchar 2) (N.shiftr v 4))
                     (a2b_base64 rest 2 (N.land v 15) 0)
            | 2%N =>
                emit (N.lor (N.shiftl leftchar 4) (N.shiftr v 2))
                     (a2b_base64 rest 3 (N.land v 3) 0)
            | _ =>
                emit (N.lor (N.shiftl leftchar 6) v)
                     (a2b_base64 rest 0 0 0)
            end
        end
  end.

(** [base64.b64decode(s)]. *)
Definition b64decode (s : bytes) : result bytes := a2b_base64 s 0 0 0.

End Base64.
Import Base64.

(** * Pillow images

    Pillow is not part of the repository; the three calls the script makes
    are modelled below. *)

Module PIL.

Inductive mode := L | RGB.

(** An image: its mode, its size and its pixel bytes in row-major order
    (one byte per pixel in mode [L], three in mode [RGB]). *)
Record Image := {
  im_mode : mode;
  im_width : N;
  im_height : N;
  im_data : bytes
}.

Definition bytes_per_pixel (m : mode) : N :=
  match m with L => 1 | RGB => 3 end.

(** Modelled from the spec: Pillow's
    [Image.frombytes(mode, (width, height), data, 'raw')], which is not in
    the repository.  The spec (4.2) has the pixel bytes copied as they are
    and a frame rejected when fewer bytes remain than the size requires:
    the image is filled from [width * height * bytes_per_pixel] bytes of
    [data], and [ValueError] is raised when [data] is shorter.

    The model follows that sentence of 4.2 and nothing more.  It does
    not settle two cases: data longer than the size requires (4.2 rejects
    only fewer bytes and the model takes the first bytes, while the
    invariant of section 3 asks for equality), and sizes Pillow cannot
    hold (a side of 2^31 or more is refused by Pillow whatever the data,
    and accepted here when the area is zero).  A statement about an image
    that is published says which sizes and lengths it is about. *)
Definition Image_frombytes (m : mode) (width height : N) (data : bytes)
  : result Image :=
  let need := N.to_nat (width * height * bytes_per_pixel m) in
  if length data <? need then Raise ValueError
  else Ok {| im_mode := m; im_width := width; im_height := height;
             im_data := firstn need data |}.

(** Modelled from the spec: Pillow's [img.convert(mode='RGB')], which is
    not in the repository.  The spec (4.2) has each grayscale byte
    replicated into three channels, which is what Pillow does: a grey
    level becomes a pixel with that level in its three channels. *)
Definition Image_convert_RGB (im : Image) : Image :=
  match im_mode im with
  | RGB => im
  | L => {| im_mode := RGB; im_width := im_width im;
            im_height := im_height im;
            im_data := flat_map (fun p => [p; p; p]) (im_data im) |}
  end.

End PIL.
Import PIL.

(** * [threading.Lock]

    A model of the two calls the script makes on its lock. *)

Module Threading.

(** A lock is [true] while it is held. *)
Definition Lock := bool.

(** [lock.acquire(blocking=False)]: returns at once, [True] with the lock
    taken when it was free, [False] otherwise. *)
Definition acquire_nonblocking (l : Lock) : Lock * bool :=
  if l then (l, false) else (true, true).

(** [lock.release()]: raises [RuntimeError] on a lock that is not held. *)
Definition release (l : Lock) : result Lock :=
  if l then Ok false else Raise RuntimeError.

End Threading.
Import Threading.

(** * The hand-off between the receive thread and the GUI *)

Module Gui.

(** The part of the [GUI] object the hand-off uses: [self.img] ([None]
    until the first assignment) and [self.img_mutex]. *)
Record GUI := {
  gui_img : option Image;
  img_mutex : Lock
}.

(** [GUI.__init__] creates the lock and acquires it. *)
Definition GUI_init : GUI := {| gui_img := None; img_mutex := true |}.

(** [GUI.update_image(img)]. *)
Definition update_image (img : Image) (g : GUI) : GUI * result unit :=
  let g1 := {| gui_img := Some img; img_mutex := img_mutex g |} in
  match release (img_mutex g1) with
  | Ok l => ({| gui_img := gui_img g1; img_mutex := l |}, Ok tt)
  | Raise e => (g1, Raise e)
  end.

(** The two statements of [update_image], one after the other: the
    assignment of line 304 and the release of line 307. *)
Definition assign_img (img : Image) (g : GUI) : GUI :=
  {| gui_img := Some img; img_mutex := img_mutex g |}.

Definition release_mutex (g : GUI) : GUI * result unit :=
  match release (img_mutex g) with
  | Ok l => ({| gui_img := gui_img g; img_mutex := l |}, Ok tt)
  | Raise e => (g, Raise e)
  end.

Definition EMBIGGEN_FACTOR : N := 4.

Section Display.

(** [img.resize((w, h))] of Pillow and [ImageTk.PhotoImage(img)] followed
    by the two canvas calls: both are outside the repository and either
    may raise. *)
Variable Image_resize : Image -> N -> N -> result Image.
Variable PhotoImage : Image -> result unit.

(** The body of the [try] of [refresh_image] up to the drawing on the
    canvas, for the value [var_big] of the Embiggen box: the image drawn,
    or the exception raised before anything was drawn. *)
Definition render (var_big : bool) (img : option Image) : result Image :=
  match img with
  | None => Raise AttributeError
  | Some im =>
      let img_w := im_width im in
      let img_h := im_height im in
      match (if var_big
             then Image_resize im (EMBIGGEN_FACTOR * img_w)
                                  (EMBIGGEN_FACTOR * img_h)
             else Ok im) with
      | Raise e => Raise e
      | Ok disp_img =>
          match PhotoImage disp_img with
          | Raise e => Raise e
          | Ok _ => Ok im
          end
      end
  end.

(** [GUI.refresh_image()]: one tick of the display.  The lock is tried
    without blocking; when it is taken the image is rendered inside
    [try ... except: pass].  The result is the image drawn on the canvas
    in this tick, [None] when the lock was held or rendering raised. *)
Definition refresh_image (var_big : bool) (g : GUI) : GUI * option Image :=
  let (l, acquired) := acquire_nonblocking (img_mutex g) in
  if acquired then
    ({| gui_img := gui_img g; img_mutex := l |},
     match render var_big (gui_img g) with
     | Ok im => Some im
     | Raise _ => None
     end)
  else (g, None).

(** The hand-off one statement at a time: the receive thread assigns or
    releases, the display takes a tick. *)
Inductive gui_step :=
| Assign (img : Image)
| Release
| Show (var_big : bool).

(** Runs the statements in order and collects what the ticks drew. *)
Fixpoint run_gui_steps (steps : list gui_step) (g : GUI)
  : GUI * list (option Image) :=
  match steps with
  | [] => (g, [])
  | Assign img :: r => run_gui_steps r (assign_img img g)
  | Release :: r => run_gui_steps r (fst (release_mutex g))
  | Show var_big :: r =>
      let (g1, o) := refresh_image var_big g in
      let (g2, os) := run_gui_steps r g1 in
      (g2, o :: os)
  end.

End Display.

(** The number of [release()] calls among the statements. *)
Definition count_releases (steps : list gui_step) : nat :=
  length (filter (fun st => match st with Release => true | _ => false end) steps).

(** The number of ticks that drew an image. *)
Definition count_drawn (l : list (option Image)) : nat :=
  length (filter (fun o => match o with Some _ => true | None => false end) l).

End Gui.
Import Gui.

(** * Statements that mutate state and may raise

  A Python statement sequence over a state [S]: it returns the state it
  leaves behind together with a value or the exception raised.  What was
  assigned before an exception stays assigned. *)

Module Stmt.

Definition M (S A : Type) := S -> S * result A.

Definition ret {S A} (a : A) : M S A := fun s => (s, Ok a).

Definition bind {S A B} (m : M S A) (k : A -> M S B) : M S B :=
  fun s =>
    match m s with
    | (s1, Ok a) => k a s1
    | (s1, Raise e) => (s1, Raise e)
    end.

Definition raise {S A} (e : exn) : M S A := fun s => (s, Raise e).

(** A library call whose outcome does not depend on the state. *)
Definition lift {S A} (r : result A) : M S A := fun s => (s, r).

Definition gets {S A} (f : S -> A) : M S A := fun s => (s, Ok (f s)).

Definition modify {S} (f : S -> S) : M S unit := fun s => (f s, Ok tt).

(** [try: body except: handler] with a bare [except]. *)
Definition try_except {S A} (body handler : M S A) : M S A :=
  fun s =>
    match body s with
    | (s1, Ok a) => (s1, Ok a)
    | (s1, Raise _) => handler s1
    end.

(** [if c: body]. *)
Definition when {S} (c : bool) (body : M S unit) : M S unit :=
  if c then body else ret tt.

Definition pass {S} : M S unit := ret tt.

End Stmt.
Import Stmt.

Declare Scope stmt_scope.
Delimit Scope stmt_scope with stmt.
Notation "x <- c1 ;; c2" := (bind c1 (fun x => c2))
(at level 61, c1 at next level, right associativity) : stmt_scope.
Notation "c1 ;; c2" := (bind c1 (fun _ => c2))
(at level 61, right associativity) : stmt_scope.
Local Open Scope stmt_scope.

(** * pyserial's [Serial] and [ImageRxTask.connect]

    pyserial is not part of the repository; [close], [open] and the two
    property setters are modelled after its [SerialBase] and its port
    classes, with the operating system as a parameter. *)

Module Port.

(** What the port object asks of the operating system. *)
Inductive syscall :=
| SysOpen (name : string) (baud : Z)
| SysClose.

(** A [serial.Serial] object: the fields [connect] touches, and the
    requests made to the operating system so far. *)
Record Serial := {
  is_open : bool;
  port : option string;
  baudrate : Z;
  trace : list syscall
}.

(** [serial.Serial()]: no port, 9600 baud, closed. *)
Definition Serial_init : Serial :=
  {| is_open := false; port := None; baudrate := 9600; trace := [] |}.

(** Return codes of [ImageRxTask]. *)
Definition OK : N := 0.
Definition ERR : N := 1.

Section Device.

(** Whether the operating system lets the named device be opened and
    configured at the given rate. *)
Variable os_open : string -> Z -> bool.

(** [ser.close()]: releases the device when the port is open, does
    nothing otherwise. *)
Definition close : M Serial unit :=
  fun s =>
    if is_open s
    then ({| is_open := false; port := port s; baudrate := baudrate s;
             trace := trace s ++ [SysClose] |}, Ok tt)
    else (s, Ok tt).

(** [ser.open()]: refuses a port without a name or already open, and
    marks the port open only when the device was opened. *)
Definition open : M Serial unit :=
  fun s =>
    match port s with
    | None => (s, Raise SerialException)
    | Some name =>
        if is_open s then (s, Raise SerialException)
        else
          let t := trace s ++ [SysOpen name (baudrate s)] in
          if os_open name (baudrate s)
          then ({| is_open := true; port := port s;
                   baudrate := baudrate s; trace := t |}, Ok tt)
          else ({| is_open := false; port := port s;
                   baudrate := baudrate s; trace := t |},
                Raise SerialException)
    end.

(** [ser.port = name]: an open port is closed, renamed and reopened. *)
Definition set_port (name : string) : M Serial unit :=
  was_open <- gets is_open;;
  when was_open close;;
  modify (fun s => {| is_open := is_open s; port := Some name;
                      baudrate := baudrate s; trace := trace s |});;
  when was_open open.

(** [ser.baudrate = rate]: a negative rate raises [ValueError]. *)
Definition set_baudrate (rate : Z) : M Serial unit :=
  if (rate <? 0)%Z then raise ValueError
  else modify (fun s => {| is_open := is_open s; port := port s;
                           baudrate := rate; trace := trace s |}).

(** [ImageRxTask.connect(port, baud_rate)]. *)
Definition connect (name : string) (baud_rate : Z) : M Serial N :=
  try_except close pass;;
  set_port name;;
  set_baudrate baud_rate;;
  try_except (open;; ret OK) (ret ERR).

(** [ImageRxTask.close()]. *)
Definition task_close : M Serial unit := close.

End Device.

(** The number of times the device was asked to open. *)
Definition open_attempts (t : list syscall) : nat :=
  length (filter (fun c => match c with SysOpen _ _ => true | SysClose => false end) t).

End Port.

(** * The receive loop, [ImageRxTask.run] *)

Module Rx.

(** Settings and EIML header constants. *)
Definition EIML_HEADER_SIZE : nat := 12.
Definition EIML_SOF_SIZE : nat := 3.
Definition EIML_FORMAT_SIZE : nat := 1.
Definition EIML_WIDTH_SIZE : nat := 4.
Definition EIML_HEIGHT_SIZE : nat := 4.
Definition EIML_SOF_B64 : bytes := b "/6D/".
Definition JPEG_SOF_B64 : bytes := b "/9j/".
Definition EIML_RESERVED : N := 0.
Definition EIML_GRAYSCALE : N := 1.
Definition EIML_RGB888 : N := 2.

(** The three bytes that start an EIML header. *)
Definition EIML_SOF : bytes := [byte 255; byte 160; byte 255].

Definition CR : ascii := byte 13.
Definition LF : ascii := byte 10.

(** Receiver state machine constants. *)
Inductive rx_mode_t := RX_STRING | RX_JPEG | RX_EIML.

Definition rx_mode_eqb (x y : rx_mode_t) : bool :=
  match x, y with
  | RX_STRING, RX_STRING | RX_JPEG, RX_JPEG | RX_EIML, RX_EIML => true
  | _, _ => false
  end.

(** What the loop does that is visible from outside: a text line that
    [print] writes (the bytes of the line; the text printed is the line
    decoded as UTF-8 and stripped), a completed image line handed to a
    decoder (the mode it was collected in and the payload left after the
    line ending is cut), and an image handed to [GUI.update_image]. *)
Inductive event :=
| Recv (line : bytes)
| Frame (kind : rx_mode_t) (payload : bytes)
| Published (im : Image).

(** The variables of [run], the GUI object it shares with the display,
    and the events so far.  [img] and [idx] are [None] while the local
    variable is unbound. *)
Record world := {
  rx_mode : rx_mode_t;
  rx_buf : bytes;
  img : option Image;
  idx : option nat;
  gui : GUI;
  log : list event
}.

(** The state in which the loop starts. *)
Definition world_init : world :=
  {| rx_mode := RX_STRING; rx_buf := []; img := None; idx := None;
     gui := GUI_init; log := [] |}.

Definition set_rx_mode (m : rx_mode_t) : M world unit :=
  modify (fun w => {| rx_mode := m; rx_buf := rx_buf w; img := img w;
                      idx := idx w; gui := gui w; log := log w |}).

Definition set_rx_buf (s : bytes) : M world unit :=
  modify (fun w => {| rx_mode := rx_mode w; rx_buf := s; img := img w;
                      idx := idx w; gui := gui w; log := log w |}).

Definition set_img (im : Image) : M world unit :=
  modify (fun w => {| rx_mode := rx_mode w; rx_buf := rx_buf w;
                      img := Some im; idx := idx w; gui := gui w;
                      log := log w |}).

Definition set_idx (i : nat) : M world unit :=
  modify (fun w => {| rx_mode := rx_mode w; rx_buf := rx_buf w;
                      img := img w; idx := Some i; gui := gui w;
                      log := log w |}).

Definition record (e : event) : M world unit :=
  modify (fun w => {| rx_mode := rx_mode w; rx_buf := rx_buf w;
                      img := img w; idx := idx w; gui := gui w;
                      log := log w ++ [e] |}).

(** Reading a local variable raises [UnboundLocalError] while it is
    unbound. *)
Definition get_img : M world Image :=
  fun w => match img w with
           | Some im => (w, Ok im)
           | None => (w, Raise UnboundLocalError)
           end.

Definition get_idx : M world nat :=
  fun w => match idx w with
           | Some i => (w, Ok i)
           | None => (w, Raise UnboundLocalError)
           end.

(** [self.gui.update_image(im)]. *)
Definition gui_update_image (im : Image) : M world unit :=
  record (Published im);;
  fun w =>
    let (g, r) := update_image im (gui w) in
    ({| rx_mode := rx_mode w; rx_buf := rx_buf w; img := img w;
        idx := idx w; gui := g; log := log w |}, r).

(** The world with another buffer. *)
Definition with_buf (w : world) (s : bytes) : world := fst (set_rx_buf s w).

(** The payload cut from the buffer of [w] when a line feed arrives. *)
Definition payload_of (w : world) : bytes := slice_to_neg (rx_buf w ++ [LF]) 2.

(** The fields of the header of a decoded EIML message, and the bytes
    after the header. *)
Definition header_width (msg : bytes) : N :=
  int_from_bytes_little (slice msg 4 8).
Definition header_height (msg : bytes) : N :=
  int_from_bytes_little (slice msg 8 12).
Definition pixel_bytes (msg : bytes) : bytes := slice_from msg 12.

(** The mode after a byte that is not a line feed joined the buffer. *)
Definition next_mode (m : rx_mode_t) (buf : bytes) : rx_mode_t :=
  match m with
  | RX_STRING =>
      if bytes_eqb buf EIML_SOF_B64 then RX_EIML
      else if bytes_eqb buf JPEG_SOF_B64 then RX_JPEG
      else RX_STRING
  | _ => m
  end.

(** The events that hand an image to the GUI. *)
Definition is_published (e : event) : Prop :=
  match e with Published _ => True | _ => False end.



Section Run.

(** [Image.open(io.BytesIO(data))], Pillow's decoder of compressed
    images. *)
Variable Image_open : bytes -> result Image.

(** Look for start of JPEG or EIML header. *)
Definition look_for_header : M world unit :=
  mode <- gets rx_mode;;
  when (rx_mode_eqb mode RX_STRING)
    (buf <- gets rx_buf;;
     when (bytes_eqb buf JPEG_SOF_B64) (set_rx_mode RX_JPEG);;
     when (bytes_eqb buf EIML_SOF_B64) (set_rx_mode RX_EIML)).

(** The [RX_JPEG] branch. *)
Definition rx_jpeg : M world unit :=
  set_rx_mode RX_STRING;;
  buf <- gets rx_buf;;
  set_rx_buf (slice_to_neg buf 2);;
  buf <- gets rx_buf;;
  record (Frame RX_JPEG buf);;
  try_except
    (img_dec <- lift (b64decode buf);;
     im <- lift (Image_open img_dec);;
     set_img im;;
     im <- get_img;;
     gui_update_image im)
    pass.

(** The [RX_EIML] branch. *)
Definition rx_eiml : M world unit :=
  set_rx_mode RX_STRING;;
  buf <- gets rx_buf;;
  set_rx_buf (slice_to_neg buf 2);;
  buf <- gets rx_buf;;
  record (Frame RX_EIML buf);;
  try_except
    (msg_dec <- lift (b64decode buf);;
     set_idx EIML_SOF_SIZE;;
     i <- get_idx;;
     format <- lift (index msg_dec i);;
     set_idx (i + EIML_FORMAT_SIZE);;
     i <- get_idx;;
     let width := int_from_bytes_little (slice msg_dec i (i + EIML_WIDTH_SIZE)) in
     set_idx (i + EIML_WIDTH_SIZE);;
     i <- get_idx;;
     let height := int_from_bytes_little (slice msg_dec i (i + EIML_HEIGHT_SIZE)) in
     set_idx (i + EIML_HEIGHT_SIZE);;
     i <- get_idx;;
     (if (format =? EIML_RGB888)%N then
        im <- lift (Image_frombytes RGB width height (slice_from msg_dec i));;
        set_img im
      else if (format =? EIML_GRAYSCALE)%N then
        im <- lift (Image_frombytes L width height (slice_from msg_dec i));;
        set_img im;;
        im <- get_img;;
        set_img (Image_convert_RGB im)
      else pass);;
     im <- get_img;;
     gui_update_image im)
    (i <- get_idx;; pass).

(** What happens when the last byte of the buffer is a line feed. *)
Definition on_newline : M world unit :=
  mode <- gets rx_mode;;
  match mode with
  | RX_STRING =>
      buf <- gets rx_buf;;
      try_except
        (when (negb (decodes_utf8 buf)) (raise ValueError);;
         record (Recv buf))
        pass
  | RX_JPEG => rx_jpeg
  | RX_EIML => rx_eiml
  end;;
  set_rx_buf [].

(** The body of the inner [while] loop for the byte [c] that
    [self.ser.read()] returned. *)
Definition on_byte (c : ascii) : M world unit :=
  buf <- gets rx_buf;;
  set_rx_buf (buf ++ [c]);;
  look_for_header;;
  buf <- gets rx_buf;;
  last <- lift (index_last buf);;
  when (last =? 10)%N on_newline.

(** [while self.ser.in_waiting: ...] over the bytes [q] waiting in the
    port: bytes are taken one at a time until none is left or an
    exception leaves the loop.  Returns the bytes still waiting. *)
Fixpoint read_loop (q : bytes) (w : world) : bytes * world * result unit :=
  match q with
  | [] => (q, w, Ok tt)
  | c :: q' =>
      match on_byte c w with
      | (w1, Ok _) => read_loop q' w1
      | (w1, Raise e) => (q', w1, Raise e)
      end
  end.

(** One turn of the [while True] loop: the outer [try] swallows an
    exception, the loop sleeps and goes on. *)
Definition iteration (qw : bytes * world) : bytes * world :=
  let '(q1, w1, _) := read_loop (fst qw) (snd qw) in (q1, w1).

Fixpoint iterate (n : nat) (qw : bytes * world) : bytes * world :=
  match n with
  | O => qw
  | S n' => iterate n' (iteration qw)
  end.

(** The transport delivers the stream in chunks: each chunk joins the
    bytes waiting in the port, then the loop takes a turn. *)
Fixpoint deliver (chunks : list bytes) (qw : bytes * world) : bytes * world :=
  match chunks with
  | [] => qw
  | ch :: r => deliver r (iteration (fst qw ++ ch, snd qw))
  end.

(** The chunks are delivered, then the loop takes [n] more turns. *)
Definition run (chunks : list bytes) (n : nat) (w : world) : bytes * world :=
  iterate n (deliver chunks ([], w)).

(** The bytes of a stream taken one after the other, whatever the turn
    of the loop that takes them. *)
Fixpoint feed (s : bytes) (w : world) : world :=
  match s with
  | [] => w
  | c :: r => feed r (fst (on_byte c w))
  end.

(** [stream_inv s w0 qw]: the loop started in [w0], the stream [s] has
  arrived so far, and [qw] holds what is still waiting and the world
  after the rest was taken. *)
Definition stream_inv (s : bytes) (w0 : world) (qw : bytes * world) : Prop :=
exists taken, s = taken ++ fst qw /\ snd qw = feed taken w0.

End Run.

End Rx.
Import Rx.

(** * Sample data *)

Module Samples.

(** A decoder of compressed images that recognises nothing. *)
Definition no_jpeg : bytes -> result Image :=
  fun _ => Raise UnidentifiedImageError.

(** A line as the device sends it: the base64 text of a message followed
    by carriage return and line feed. *)
Definition frame_line (msg : bytes) : bytes := b64encode msg ++ [CR; LF].

(** An EIML message for a [width] x [height] image (both below 256). *)
Definition eiml_msg (format width height : N) (pixels : list N) : bytes :=
  EIML_SOF
  ++ map byte [format; width; 0; 0; 0; height; 0; 0; 0]%N
  ++ map byte pixels.

(** The 12 header bytes of the scenario: start marker, RGB888, width 4,
    height 2. *)
Definition header_4x2 : bytes :=
  map byte [255; 160; 255; 2; 4; 0; 0; 0; 2; 0; 0; 0]%N.

Definition frame_A : Image :=
  {| im_mode := RGB; im_width := 1; im_height := 1;
     im_data := map byte [1; 2; 3]%N |}.

Definition frame_B : Image :=
  {| im_mode := RGB; im_width := 1; im_height := 1;
     im_data := map byte [4; 5; 6]%N |}.

(** A world in which the bytes [text] were taken since the loop
    started. *)
Definition world_after (text : bytes) : world := feed no_jpeg text world_init.

(** A resize that, like Pillow's, refuses a size with a zero side (the
    pixels of the result are left out, nothing looks at them), and a
    [PhotoImage] that accepts every image. *)
Definition resize_nonempty : Image -> N -> N -> result Image :=
  fun im width height =>
    if ((width =? 0) || (height =? 0))%N then Raise ValueError
    else Ok {| im_mode := im_mode im; im_width := width;
               im_height := height; im_data := [] |}.

Definition photo_any : Image -> result unit := fun _ => Ok tt.

End Samples.
Import Samples.

(** * Reading the log *)

Module Log.

(** The image of the last [Published] event of a log, [d] when there is
    none. *)
Fixpoint last_pub (l : list event) (d : option Image) : option Image :=
  match l with
  | [] => d
  | Published im :: r => last_pub r (Some im)
  | _ :: r => last_pub r d
  end.

Definition count_published (l : list event) : nat :=
  length (filter (fun e => match e with Published _ => true | _ => false end) l).

Definition count_frames (l : list event) : nat :=
  length (filter (fun e => match e with Frame _ _ => true | _ => false end) l).

(** The number of line feeds in a stream. *)
Definition count_LF (s : bytes) : nat :=
  length (filter (fun c => (N_of_ascii c =? 10)%N) s).

(** The variables of [run] and its log, without the GUI object. *)
Definition rx_part (w : world)
  : rx_mode_t * bytes * option Image * option nat * list event :=
  (rx_mode w, rx_buf w, img w, idx w, log w).

(** The world with another GUI object. *)
Definition with_gui (w : world) (g : GUI) : world :=
  {| rx_mode := rx_mode w; rx_buf := rx_buf w; img := img w; idx := idx w;
     gui := g; log := log w |}.

(** The three bytes that start a JPEG file. *)
Definition JPEG_SOI : bytes := [byte 255; byte 216; byte 255].

End Log.
Import Log.

(** * More sample data *)

Module Samples2.

(** A decoder of compressed images that accepts whatever starts with
    FF D8 FF and answers with a 1 x 1 image. *)
Definition soi_jpeg : bytes -> result Image :=
  fun d => if bytes_eqb (firstn 3 d) JPEG_SOI then Ok frame_A
           else Raise UnidentifiedImageError.

(** A world in which an EIML header was parsed before. *)
Definition world_parsed : world :=
  world_after (frame_line (eiml_msg 2 1 1 [10; 20; 30]%N)).

End Samples2.
Import Samples2.

(** * The receive loop and the display side by side *)

Module Threads.

(** What happens next: the receive loop takes a byte, or the display
    takes a tick. *)
Inductive action :=
| Byte (c : ascii)
| Tick (var_big : bool).

(** The bytes of a schedule, in order. *)
Fixpoint bytes_of (acts : list action) : bytes :=
  match acts with
  | [] => []
  | Byte c :: r => c :: bytes_of r
  | Tick _ :: r => bytes_of r
  end.

Section Interleave.

Variable Image_open : bytes -> result Image.
Variable Image_resize : Image -> N -> N -> result Image.
Variable PhotoImage : Image -> result unit.

(** Runs a schedule: [on_byte] for a byte, [refresh_image] on the shared
    GUI object for a tick.  Returns the world and what every tick
    showed. *)
Fixpoint interleave (acts : list action) (w : world)
  : world * list (option Image) :=
  match acts with
  | [] => (w, [])
  | Byte c :: r => interleave r (fst (on_byte Image_open c w))
  | Tick var_big :: r =>
      let (g, shown) := refresh_image Image_resize PhotoImage var_big (gui w) in
      let (w', l) := interleave r (with_gui w g) in
      (w', shown :: l)
  end.

End Interleave.

(** [self.img] is the image published last. *)
Definition img_is_last (w : world) : Prop :=
  gui_img (gui w) = last_pub (log w) None.

(** 1 while an image waits for the display. *)
Definition pending (g : GUI) : nat := if img_mutex g then 0 else 1.

End Threads.
Import Threads.

(** * The life of the port *)

Module PortLife.

(** What the GUI asks of the receive task. *)
Inductive port_op :=
| DoConnect (name : string) (baud_rate : Z)
| DoClose.

Section Device.

Variable os_open : string -> Z -> bool.

(** Whether the device is held after the requests [t], when it was held
    or not ([held]) before them. *)
Fixpoint held_after (t : list Port.syscall) (held : bool) : bool :=
  match t with
  | [] => held
  | Port.SysOpen name baud :: r => held_after r (os_open name baud)
  | Port.SysClose :: r => held_after r false
  end.

(** The requests [t] never ask to open while the device is held and
    never ask to close while it is not. *)
Fixpoint orderly (t : list Port.syscall) (held : bool) : bool :=
  match t with
  | [] => true
  | Port.SysOpen name baud :: r => negb held && orderly r (os_open name baud)
  | Port.SysClose :: r => held && orderly r false
  end.


(** The port object agrees with the requests it made. *)
Definition port_inv (s : Port.Serial) : Prop :=
  orderly (Port.trace s) false = true
  /\ Port.is_open s = held_after (Port.trace s) false.

(** Runs the operations on a port object; an exception raised by
    [connect] is lost here, the object keeps what was done. *)
Fixpoint run_port_ops (ops : list port_op) (s : Port.Serial) : Port.Serial :=
  match ops with
  | [] => s
  | DoConnect name baud :: r =>
      run_port_ops r (fst (Port.connect os_open name baud s))
  | DoClose :: r => run_port_ops r (fst (Port.task_close s))
  end.

End Device.

End PortLife.
Import PortLife.

(** * The window: connecting, the list of ports, saving *)

Module Window.

(** Settings. *)
Definition INIT_BAUD : Z := 230400.
Definition IMG_EXT : string := ".png".

(** The fields of the [GUI] object that the buttons and the port list
    use.  [menu_port] holds the labels of the entries of the port menu,
    [ser] is the port object of the receive task. *)
Record Window := {
  connected : bool;
  port : string;
  available_ports : list string;
  var_port : string;
  menu_port : list string;
  ser : Port.Serial
}.

(** [p in ports]. *)
Definition port_in (p : string) (ports : list string) : bool :=
  existsb (String.eqb p) ports.

(** [a == b] on lists of port names. *)
Fixpoint ports_eqb (a b : list string) : bool :=
  match a, b with
  | [], [] => true
  | x :: a', y :: b' => String.eqb x y && ports_eqb a' b'
  | _, _ => false
  end.

(** The port names of an enumeration [(port, desc, hwid)], [[""]] when
    the enumeration is empty. *)
Definition port_names (serial_list : list (string * string * string))
  : list string :=
  match serial_list with
  | [] => [EmptyString]
  | _ => fold_left (fun acc entry => acc ++ [fst (fst entry)]) serial_list []
  end.

(** The part of [GUI.__init__] that sets these fields, for the sorted
    enumeration [serial_list]. *)
Definition Window_init (serial_list : list (string * string * string))
  : Window :=
  let ports := port_names serial_list in
  {| connected := false; port := EmptyString; available_ports := ports;
     var_port := hd EmptyString ports; menu_port := ports;
     ser := Port.Serial_init |}.

Section Device.

Variable os_open : string -> Z -> bool.

(** [GUI.on_connect_clicked()].  [var_baud] is what [self.var_baud.get()]
    gives: [None] when the entry does not hold an integer. *)
Definition on_connect_clicked (var_baud : option Z) : M Window unit :=
  match var_baud with
  | None => pass
  | Some baud_rate =>
      modify (fun w => {| connected := connected w; port := var_port w;
                          available_ports := available_ports w;
                          var_port := var_port w; menu_port := menu_port w;
                          ser := ser w |});;
      p <- gets port;;
      if String.eqb p EmptyString then pass
      else
        res <- (fun w =>
                  let (s, r) := Port.connect os_open (port w) baud_rate (ser w) in
                  ({| connected := connected w; port := port w;
                      available_ports := available_ports w;
                      var_port := var_port w; menu_port := menu_port w;
                      ser := s |}, r));;
        modify (fun w => {| connected := (res =? Port.OK)%N; port := port w;
                            available_ports := available_ports w;
                            var_port := var_port w; menu_port := menu_port w;
                            ser := ser w |})
  end.

End Device.

(** [GUI.refresh_serial_list()], for the sorted enumeration
    [serial_list]. *)
Definition refresh_serial_list (serial_list : list (string * string * string))
    (w : Window) : Window :=
  let new_ports := port_names serial_list in
  let w1 :=
    if connected w && negb (port_in (port w) new_ports)
    then {| connected := false; port := EmptyString;
            available_ports := available_ports w; var_port := EmptyString;
            menu_port := menu_port w; ser := ser w |}
    else w in
  if negb (ports_eqb new_ports (available_ports w1))
  then
    match new_ports with
    | [] => {| connected := connected w1; port := port w1;
               available_ports := [EmptyString]; var_port := var_port w1;
               menu_port := []; ser := ser w1 |}
    | _ => {| connected := connected w1; port := port w1;
              available_ports := new_ports; var_port := var_port w1;
              menu_port := fold_left (fun menu p => menu ++ [p]) new_ports [];
              ser := ser w1 |}
    end
  else w1.

(** What the window goes through. *)
Inductive win_op :=
| ClickConnect (var_baud : option Z)
| Select (name : string)
| Refresh (serial_list : list (string * string * string)).

Section Session.

Variable os_open : string -> Z -> bool.

Fixpoint run_win_ops (ops : list win_op) (w : Window) : Window :=
  match ops with
  | [] => w
  | ClickConnect var_baud :: r =>
      run_win_ops r (fst (on_connect_clicked os_open var_baud w))
  | Select name :: r =>
      run_win_ops r {| connected := connected w; port := port w;
                       available_ports := available_ports w;
                       var_port := name; menu_port := menu_port w;
                       ser := ser w |}
  | Refresh serial_list :: r => run_win_ops r (refresh_serial_list serial_list w)
  end.

(** What a session keeps: a window marked connected has its port open,
    the list of ports is not empty and the menu shows it. *)
Definition win_inv (w : Window) : Prop :=
  (connected w = true -> Port.is_open (ser w) = true)
  /\ available_ports w <> []
  /\ menu_port w = available_ports w.

(** No click carries a negative rate. *)
Definition rates_ok (ops : list win_op) : Prop :=
  Forall (fun o => match o with
                   | ClickConnect (Some rate) => (0 <= rate)%Z
                   | _ => True
                   end) ops.

End Session.

(** ** Saving *)

(** The characters removed from a file name. *)
Definition forbidden : string := "\/:*?<>|".

(** [c in s] for a character [c]. *)
Fixpoint char_in (c : ascii) (s : string) : bool :=
  match s with
  | EmptyString => false
  | String d r => Ascii.eqb c d || char_in c r
  end.

(** ["".join(i for i in filename if i not in "\/:*?<>|")]. *)
Fixpoint sanitize (filename : string) : string :=
  match filename with
  | EmptyString => EmptyString
  | String c r =>
      if char_in c forbidden then sanitize r else String c (sanitize r)
  end.

(** No forbidden character occurs in [s]. *)
Fixpoint clean (s : string) : bool :=
  match s with
  | EmptyString => true
  | String c r => negb (char_in c forbidden) && clean r
  end.

(** [s[-k:]]. *)
Definition last_chars (k : nat) (s : string) : string :=
  substring (String.length s - k) k s.

(** The files of the working directory: name and content, the newest
    first. *)
Definition Disk := list (string * Image).

(** [os.path.exists(name)]. *)
Definition path_exists (name : string) (d : Disk) : bool :=
  existsb (fun f => String.eqb name (fst f)) d.

(** The name built from a label and a uid. *)
Definition make_filename (label uid : string) : string :=
  if String.eqb label EmptyString then (uid ++ IMG_EXT)%string
  else (label ++ "." ++ uid ++ IMG_EXT)%string.

(** The [while True] loop of [on_save_clicked]: [uuids] are the values
    [str(uuid.uuid4())] takes at the successive turns.  [None] when all
    of them gave a name that exists, the loop then still runs. *)
Fixpoint pick_filename (label : string) (uuids : list string) (d : Disk)
  : option string :=
  match uuids with
  | [] => None
  | u :: r =>
      let uid := last_chars 12 u in
      let filename := make_filename label uid in
      if negb (path_exists filename d) then Some filename
      else pick_filename label r d
  end.

Section Save.

(** Whether [img.save(name)] can write the file. *)
Variable save_ok : string -> Image -> bool.

(** [GUI.on_save_clicked()], for the content [label] of the label entry;
    [img] is [self.img], [None] while it was never assigned.  The result
    is the directory afterwards, [None] while the loop still runs. *)
Definition on_save_clicked (is_connected : bool) (img : option Image)
    (label : string) (uuids : list string) (d : Disk) : option Disk :=
  if is_connected then
    match pick_filename label uuids d with
    | None => None
    | Some filename =>
        let filename := sanitize filename in
        match img with
        | None => Some d
        | Some im =>
            if save_ok filename im then Some ((filename, im) :: d)
            else Some d
        end
    end
  else Some d.

End Save.

End Window.

(** * Checking by enumeration *)

Module Enum.

(** Checking a property of small numbers by running it on all of them. *)
Fixpoint all_below (n : nat) (P : N -> bool) : bool :=
  match n with
  | O => true
  | S k => P (N.of_nat k) && all_below k P
  end.

End Enum.
Import Enum.

(** Unfolds the statements of the loop down to the library calls. *)
Ltac run_stmt :=
  cbv beta iota zeta delta
    [bind ret raise lift gets modify try_except when pass
     set_rx_mode set_rx_buf set_img set_idx record get_img get_idx
     gui_update_image look_for_header on_newline rx_eiml rx_jpeg on_byte
     rx_mode_eqb rx_mode rx_buf img idx gui log fst snd
     EIML_SOF_SIZE EIML_FORMAT_SIZE EIML_WIDTH_SIZE EIML_HEIGHT_SIZE
     EIML_HEADER_SIZE Nat.add].

(** * Facts about the library models *)

Section Exhaustive.

Lemma all_below_spec (P : N -> bool) (n : nat) :
  all_below n P = true -> forall v, (v < N.of_nat n)%N -> P v = true.
Proof.
  induction n as [|k IH]; intros H v Hv.
  - lia.
  - cbn [all_below] in H. apply andb_prop in H. destruct H as [Hk Hr].
    destruct (N.eq_dec v (N.of_nat k)) as [->|Hne]; [exact Hk|].
    apply IH; [exact Hr | lia].
Qed.

Lemma all_below2 (P : N -> N -> bool) (n m : nat) :
  all_below n (fun x => all_below m (P x)) = true ->
  forall x y, (x < N.of_nat n)%N -> (y < N.of_nat m)%N -> P x y = true.
Proof.
  intros H x y Hx Hy.
  apply (all_below_spec (P x) m); [| exact Hy].
  apply (all_below_spec (fun x => all_below m (P x)) n H x Hx).
Qed.

End Exhaustive.

Section Base64Facts.

Lemma b64_index_char v : (v < 64)%N -> b64_index (b64_char v) = Some v.
Proof.
  intros Hv.
  pose (P := fun v => match b64_index (b64_char v) with
                        | Some u => (u =? v)%N
                        | None => false
                        end).
  assert (H : P v = true)
    by (apply (all_below_spec P 64); [vm_compute; reflexivity | exact Hv]).
  unfold P in H; clear P. destruct (b64_index (b64_char v)) as [u|]; [|discriminate].
  apply N.eqb_eq in H. now subst.
Qed.

(** No character of the alphabet is the padding character or a line
    feed. *)
Lemma b64_char_plain v :
  (v < 64)%N ->
  Ascii.eqb (b64_char v) pad = false /\ N_of_ascii (b64_char v) <> 10%N.
Proof.
  intros Hv.
  pose (P := fun v => negb (Ascii.eqb (b64_char v) pad)
                        && negb (N_of_ascii (b64_char v) =? 10)%N).
  assert (H : P v = true)
    by (apply (all_below_spec P 64); [vm_compute; reflexivity | exact Hv]).
  unfold P in H; clear P. apply andb_prop in H. destruct H as [H1 H2].
  apply negb_true_iff in H1, H2. split; [exact H1|].
  now apply N.eqb_neq.
Qed.

(** The 6-bit values the encoder computes are in range. *)
Lemma sextets_ok x y :
  (x < 256)%N -> (y < 256)%N ->
  (N.shiftr x 2 < 64 /\
   N.lor (N.shiftl (N.land x 3) 4) (N.shiftr y 4) < 64 /\
   N.lor (N.shiftl (N.land x 15) 2) (N.shiftr y 6) < 64 /\
   N.land x 63 < 64 /\
   N.shiftl (N.land x 3) 4 < 64 /\
   N.shiftl (N.land x 15) 2 < 64)%N.
Proof.
  intros Hx Hy.
  pose (P := (fun x y =>
      (N.shiftr x 2 <? 64)
      && (N.lor (N.shiftl (N.land x 3) 4) (N.shiftr y 4) <? 64)
      && (N.lor (N.shiftl (N.land x 15) 2) (N.shiftr y 6) <? 64)
      && (N.land x 63 <? 64)
      && (N.shiftl (N.land x 3) 4 <? 64)
      && (N.shiftl (N.land x 15) 2 <? 64))%N).
  assert (H : P x y = true)
    by (apply (all_below2 P 256 256); [vm_compute; reflexivity | exact Hx | exact Hy]).
  unfold P in H; clear P. repeat (apply andb_prop in H; destruct H as [H ?]).
  repeat split; apply N.ltb_lt; assumption.
Qed.

(** The decoder's bit operations undo the encoder's. *)
Lemma regroup x y :
  (x < 256)%N -> (y < 256)%N ->
  (N.lor (N.shiftl (N.shiftr x 2) 2)
         (N.shiftr (N.lor (N.shiftl (N.land x 3) 4) (N.shiftr y 4)) 4) = x /\
   N.land (N.lor (N.shiftl (N.land x 3) 4) (N.shiftr y 4)) 15 = N.shiftr y 4 /\
   N.lor (N.shiftl (N.shiftr x 4) 4)
         (N.shiftr (N.lor (N.shiftl (N.land x 15) 2) (N.shiftr y 6)) 2) = x /\
   N.land (N.lor (N.shiftl (N.land x 15) 2) (N.shiftr y 6)) 3 = N.shiftr y 6 /\
   N.lor (N.shiftl (N.shiftr x 6) 6) (N.land x 63) = x /\
   N.lor (N.shiftl (N.shiftr x 2) 2) (N.shiftr (N.shiftl (N.land x 3) 4) 4) = x /\
   N.land (N.shiftl (N.land x 3) 4) 15 = 0 /\
   N.lor (N.shiftl (N.shiftr x 4) 4) (N.shiftr (N.shiftl (N.land x 15) 2) 2) = x /\
   N.land (N.shiftl (N.land x 15) 2) 3 = 0)%N.
Proof.
  intros Hx Hy.
  pose (P := (fun x y =>
      (N.lor (N.shiftl (N.shiftr x 2) 2)
         (N.shiftr (N.lor (N.shiftl (N.land x 3) 4) (N.shiftr y 4)) 4) =? x)
      && (N.land (N.lor (N.shiftl (N.land x 3) 4) (N.shiftr y 4)) 15 =? N.shiftr y 4)
      && (N.lor (N.shiftl (N.shiftr x 4) 4)
         (N.shiftr (N.lor (N.shiftl (N.land x 15) 2) (N.shiftr y 6)) 2) =? x)
      && (N.land (N.lor (N.shiftl (N.land x 15) 2) (N.shiftr y 6)) 3 =? N.shiftr y 6)
      && (N.lor (N.shiftl (N.shiftr x 6) 6) (N.land x 63) =? x)
      && (N.lor (N.shiftl (N.shiftr x 2) 2) (N.shiftr (N.shiftl (N.land x 3) 4) 4) =? x)
      && (N.land (N.shiftl (N.land x 3) 4) 15 =? 0)
      && (N.lor (N.shiftl (N.shiftr x 4) 4) (N.shiftr (N.shiftl (N.land x 15) 2) 2) =? x)
      && (N.land (N.shiftl (N.land x 15) 2) 3 =? 0))%N).
  assert (H : P x y = true)
    by (apply (all_below2 P 256 256); [vm_compute; reflexivity | exact Hx | exact Hy]).
  unfold P in H; clear P. repeat (apply andb_prop in H; destruct H as [H ?]).
  repeat split; apply N.eqb_eq; assumption.
Qed.

End Base64Facts.

Section Base64RoundTrip.

Lemma list_ind3 (A : Type) (P : list A -> Prop) :
  P [] -> (forall x, P [x]) -> (forall x y, P [x; y]) ->
  (forall x y z r, P r -> P (x :: y :: z :: r)) ->
  forall l, P l.
Proof.
  intros H0 H1 H2 H3.
  assert (H : forall l, P l /\ (forall x, P (x :: l)) /\ (forall x y, P (x :: y :: l))).
  { induction l as [|a l (IH0 & IH1 & IH2)].
    - repeat split; auto.
    - repeat split; auto. }
  intros l. apply H.
Qed.

(** How the decoding loop takes a character of the alphabet. *)
Lemma a2b_char v rest q l p :
  (v < 64)%N ->
  a2b_base64 (b64_char v :: rest) q l p =
  match q with
  | 0%N => a2b_base64 rest 1 v 0
  | 1%N => emit (N.lor (N.shiftl l 2) (N.shiftr v 4))
                (a2b_base64 rest 2 (N.land v 15) 0)
  | 2%N => emit (N.lor (N.shiftl l 4) (N.shiftr v 2))
                (a2b_base64 rest 3 (N.land v 3) 0)
  | _ => emit (N.lor (N.shiftl l 6) v) (a2b_base64 rest 0 0 0)
  end.
Proof.
  intros Hv. cbn [a2b_base64].
  rewrite (proj1 (b64_char_plain v Hv)), (b64_index_char v Hv). reflexivity.
Qed.

Lemma a2b_pad2 rest l : a2b_base64 (pad :: pad :: rest) 2 l 0 = Ok [].
Proof. reflexivity. Qed.

Lemma a2b_pad1 rest l : a2b_base64 (pad :: rest) 3 l 0 = Ok [].
Proof. reflexivity. Qed.

Lemma byte_N_of_ascii c : byte (N_of_ascii c) = c.
Proof. apply ascii_N_embedding. Qed.

(** Decoding undoes encoding. *)
Lemma b64decode_b64encode s : b64decode (b64encode s) = Ok s.
Proof.
  unfold b64decode. induction s as [|x|x y|x y z r IH] using list_ind3.
  - reflexivity.
  - pose proof (N_ascii_bounded x) as Hx.
    destruct (sextets_ok _ _ Hx Hx) as (S1 & _ & _ & _ & S5 & _).
    destruct (regroup _ _ Hx Hx) as (_ & _ & _ & _ & _ & R6 & _).
    cbn [b64encode].
    rewrite (a2b_char _ _ _ _ _ S1), (a2b_char _ _ _ _ _ S5), a2b_pad2.
    cbn [emit]. now rewrite R6, byte_N_of_ascii.
  - pose proof (N_ascii_bounded x) as Hx. pose proof (N_ascii_bounded y) as Hy.
    destruct (sextets_ok _ _ Hx Hy) as (S1 & S2 & _).
    destruct (sextets_ok _ _ Hy Hy) as (_ & _ & _ & _ & _ & S6).
    destruct (regroup _ _ Hx Hy) as (R1 & R2 & _).
    destruct (regroup _ _ Hy Hy) as (_ & _ & _ & _ & _ & _ & _ & R8 & _).
    cbn [b64encode].
    rewrite (a2b_char _ _ _ _ _ S1), (a2b_char _ _ _ _ _ S2), (a2b_char _ _ _ _ _ S6), a2b_pad1.
    cbn [emit]. now rewrite R1, R2, R8, !byte_N_of_ascii.
  - pose proof (N_ascii_bounded x) as Hx. pose proof (N_ascii_bounded y) as Hy.
    pose proof (N_ascii_bounded z) as Hz.
    destruct (sextets_ok _ _ Hx Hy) as (S1 & S2 & _).
    destruct (sextets_ok _ _ Hy Hz) as (_ & _ & S3 & _).
    destruct (sextets_ok _ _ Hz Hz) as (_ & _ & _ & S4 & _).
    destruct (regroup _ _ Hx Hy) as (R1 & R2 & _).
    destruct (regroup _ _ Hy Hz) as (_ & _ & R3 & R4 & _).
    destruct (regroup _ _ Hz Hz) as (_ & _ & _ & _ & R5 & _).
    cbn [b64encode].
    rewrite (a2b_char _ _ _ _ _ S1), (a2b_char _ _ _ _ _ S2), (a2b_char _ _ _ _ _ S3),
      (a2b_char _ _ _ _ _ S4), IH.
    cbn [emit]. now rewrite R1, R2, R3, R4, R5, !byte_N_of_ascii.
Qed.

(** The encoder writes no line feed. *)
Lemma b64encode_no_LF s : Forall (fun c => N_of_ascii c <> 10%N) (b64encode s).
Proof.
  assert (Hpad : N_of_ascii pad <> 10%N) by (vm_compute; discriminate).
  induction s as [|x|x y|x y z r IH] using list_ind3.
  - constructor.
  - pose proof (N_ascii_bounded x) as Hx.
    destruct (sextets_ok _ _ Hx Hx) as (S1 & _ & _ & _ & S5 & _).
    cbn [b64encode]. repeat constructor; try exact Hpad;
      apply b64_char_plain; assumption.
  - pose proof (N_ascii_bounded x) as Hx. pose proof (N_ascii_bounded y) as Hy.
    destruct (sextets_ok _ _ Hx Hy) as (S1 & S2 & _).
    destruct (sextets_ok _ _ Hy Hy) as (_ & _ & _ & _ & _ & S6).
    cbn [b64encode]. repeat constructor; try exact Hpad;
      apply b64_char_plain; assumption.
  - pose proof (N_ascii_bounded x) as Hx. pose proof (N_ascii_bounded y) as Hy.
    pose proof (N_ascii_bounded z) as Hz.
    destruct (sextets_ok _ _ Hx Hy) as (S1 & S2 & _).
    destruct (sextets_ok _ _ Hy Hz) as (_ & _ & S3 & _).
    destruct (sextets_ok _ _ Hz Hz) as (_ & _ & _ & S4 & _).
    cbn [b64encode]. repeat (constructor; [apply b64_char_plain; assumption|]).
    exact IH.
Qed.


End Base64RoundTrip.

(** * Facts about the receive loop *)

Section Scanner.

Variable Image_open : bytes -> result Image.

Lemma bytes_eqb_eq x y : bytes_eqb x y = true <-> x = y.
Proof.
  revert y. induction x as [|c x IH]; intros [|d y]; cbn; split; intros H;
    try reflexivity; try discriminate.
  - apply andb_prop in H. destruct H as [H1 H2].
    apply Ascii.eqb_eq in H1. apply IH in H2. now subst.
  - injection H as -> ->. rewrite Ascii.eqb_refl. cbn. now apply IH.
Qed.

Lemma index_last_snoc buf c : index_last (buf ++ [c]) = Ok (N_of_ascii c).
Proof.
  destruct buf as [|d buf]; [reflexivity|].
  cbn [app index_last]. now rewrite last_last.
Qed.

Lemma slice_to_neg_snoc2 p x y : slice_to_neg (p ++ [x; y]) 2 = p.
Proof.
  unfold slice_to_neg. rewrite length_app. cbn [length].
  replace (length p + 2 - 2) with (length p + 0) by lia.
  now rewrite firstn_app_2, app_nil_r.
Qed.

(** Cutting two bytes off a buffer that just received a byte leaves the
    buffer it was before, less its last byte. *)
Lemma slice_to_neg_snoc buf c : slice_to_neg (buf ++ [c]) 2 = removelast buf.
Proof.
  destruct buf as [|d buf] using rev_ind; [reflexivity|].
  rewrite removelast_last, <- app_assoc. apply slice_to_neg_snoc2.
Qed.

(** A byte other than a line feed taken while an image is collected
    joins the buffer and nothing else happens. *)
Lemma on_byte_collect c w :
  rx_mode w <> RX_STRING -> N_of_ascii c <> 10%N ->
  on_byte Image_open c w = (with_buf w (rx_buf w ++ [c]), Ok tt).
Proof.
  intros Hm Hc. destruct w as [m buf im i g lg]. cbn in Hm.
  unfold with_buf.
  destruct m; [congruence| |]; run_stmt; rewrite index_last_snoc;
    (destruct (N.eqb_spec (N_of_ascii c) 10); [congruence | reflexivity]).
Qed.

Lemma feed_app s t w :
  feed Image_open (s ++ t) w = feed Image_open t (feed Image_open s w).
Proof. revert w. induction s as [|c s IH]; intros w; cbn; [reflexivity | apply IH]. Qed.

Lemma feed_collect s w :
  rx_mode w <> RX_STRING -> Forall (fun c => N_of_ascii c <> 10%N) s ->
  feed Image_open s w = with_buf w (rx_buf w ++ s).
Proof.
  intros Hm Hs. revert w Hm. induction Hs as [|c s Hc Hs IH]; intros w Hm.
  - destruct w; unfold with_buf; cbn. now rewrite app_nil_r.
  - cbn [feed]. rewrite (on_byte_collect c w Hm Hc). cbn [fst].
    rewrite IH by (destruct w; exact Hm).
    destruct w; unfold with_buf; cbn. now rewrite <- app_assoc.
Qed.

(** ** The loop takes the bytes of the stream in order *)

(** One pass of the inner loop takes a prefix of the waiting bytes, and
    at least one byte when there is one. *)
Lemma read_loop_prefix q w q1 w1 r :
  read_loop Image_open q w = (q1, w1, r) ->
  exists taken, q = taken ++ q1 /\ w1 = feed Image_open taken w
                /\ (q <> [] -> taken <> []).
Proof.
  revert w. induction q as [|c q IH]; intros w.
  - cbn. intros [= <- <- <-]. exists []. repeat split. congruence.
  - cbn [read_loop]. destruct (on_byte Image_open c w) as [w2 [u|e]] eqn:E.
    + intros H. destruct (IH _ H) as (taken & H1 & H2 & _).
      exists (c :: taken). cbn [app feed]. rewrite E. cbn [fst].
      repeat split; [now f_equal | exact H2 | discriminate].
    + intros [= <- <- <-]. exists [c]. cbn [app feed]. rewrite E. cbn [fst].
      repeat split. discriminate.
Qed.

Lemma iteration_prefix q w q1 w1 :
  iteration Image_open (q, w) = (q1, w1) ->
  exists taken, q = taken ++ q1 /\ w1 = feed Image_open taken w
                /\ (q <> [] -> taken <> []).
Proof.
  unfold iteration. cbn [fst snd].
  destruct (read_loop Image_open q w) as [[q2 w2] r] eqn:E.
  intros [= <- <-]. exact (read_loop_prefix _ _ _ _ _ E).
Qed.

Lemma stream_inv_iteration s w0 qw :
  stream_inv Image_open s w0 qw -> stream_inv Image_open s w0 (iteration Image_open qw).
Proof.
  intros (taken & Hs & Hw). destruct qw as [q w]. cbn [fst snd] in *.
  destruct (iteration Image_open (q, w)) as [q1 w1] eqn:E.
  destruct (iteration_prefix _ _ _ _ E) as (more & H1 & H2 & _).
  exists (taken ++ more). cbn [fst snd]. split.
  - rewrite <- app_assoc, <- H1. exact Hs.
  - rewrite H2, feed_app, Hw. reflexivity.
Qed.

Lemma stream_inv_deliver chunks s w0 qw :
  stream_inv Image_open s w0 qw ->
  stream_inv Image_open (s ++ concat chunks) w0 (deliver Image_open chunks qw).
Proof.
  revert s qw. induction chunks as [|ch r IH]; intros s qw H.
  - cbn. now rewrite app_nil_r.
  - cbn [deliver concat]. rewrite app_assoc. apply IH.
    apply stream_inv_iteration.
    destruct H as (taken & Hs & Hw). exists taken. cbn [fst snd].
    split; [now rewrite Hs, app_assoc | exact Hw].
Qed.

(** Enough turns empty the port. *)
Lemma iterate_drains n q w :
  length q <= n ->
  iterate Image_open n (q, w) = ([], feed Image_open q w).
Proof.
  revert q w. induction n as [|n IH]; intros q w Hn.
  - destruct q; [reflexivity | cbn in Hn; lia].
  - cbn [iterate].
    destruct (iteration Image_open (q, w)) as [q1 w1] eqn:E.
    destruct (iteration_prefix _ _ _ _ E) as (taken & H1 & H2 & H3).
    rewrite IH.
    + rewrite H2, <- feed_app, <- H1. reflexivity.
    + destruct q as [|c q].
      * symmetry in H1. apply app_eq_nil in H1. destruct H1 as [_ ->]. cbn. lia.
      * assert (Ht : taken <> []) by (apply H3; discriminate).
        apply (f_equal (@length ascii)) in H1. rewrite length_app in H1.
        destruct taken; [congruence | cbn in *; lia].
Qed.

(** However the stream is cut into chunks, once the loop has had enough
    turns it has taken every byte in order. *)
Lemma run_feed chunks n w :
  length (concat chunks) <= n ->
  run Image_open chunks n w = ([], feed Image_open (concat chunks) w).
Proof.
  intros Hn. unfold run.
  assert (H : stream_inv Image_open ([] ++ concat chunks) w (deliver Image_open chunks ([], w))).
  { apply stream_inv_deliver. exists []. split; reflexivity. }
  destruct (deliver Image_open chunks ([], w)) as [q w1].
  destruct H as (taken & Hs & Hw). cbn [fst snd app] in Hs, Hw.
  rewrite iterate_drains.
  - rewrite Hw, <- feed_app, <- Hs. reflexivity.
  - rewrite Hs, length_app in Hn. lia.
Qed.

End Scanner.

Section Decoder.

Variable Image_open : bytes -> result Image.

Lemma LF_is_10 : (N_of_ascii LF =? 10)%N = true.
Proof. reflexivity. Qed.

(** A line feed in mode [RX_EIML], up to the test of the format byte. *)
Ltac eiml_start Hdec Hfmt :=
  run_stmt; rewrite index_last_snoc; cbv beta iota; rewrite LF_is_10;
  cbv beta iota; rewrite Hdec; cbv beta iota; rewrite Hfmt; cbv beta iota.

Lemma frombytes_short m width height data :
  (N.of_nat (length data) < width * height * bytes_per_pixel m)%N ->
  Image_frombytes m width height data = Raise ValueError.
Proof.
  intros H. unfold Image_frombytes.
  destruct (Nat.ltb_spec (length data) (N.to_nat (width * height * bytes_per_pixel m)));
    [reflexivity | lia].
Qed.

Lemma frombytes_enough m width height data :
  (width * height * bytes_per_pixel m <= N.of_nat (length data))%N ->
  Image_frombytes m width height data =
  Ok {| im_mode := m; im_width := width; im_height := height;
        im_data := firstn (N.to_nat (width * height * bytes_per_pixel m)) data |}.
Proof.
  intros H. unfold Image_frombytes.
  destruct (Nat.ltb_spec (length data) (N.to_nat (width * height * bytes_per_pixel m)));
    [lia | reflexivity].
Qed.

(** A frame whose pixel data is shorter than its header announces is
    dropped: nothing reaches the GUI, the buffer is cleared and the loop
    goes on. *)
Lemma eiml_short w msg fmt m :
  rx_mode w = RX_EIML ->
  b64decode (payload_of w) = Ok msg ->
  index msg 3 = Ok fmt ->
  (fmt = EIML_GRAYSCALE /\ m = L) \/ (fmt = EIML_RGB888 /\ m = RGB) ->
  (N.of_nat (length (pixel_bytes msg))
   < header_width msg * header_height msg * bytes_per_pixel m)%N ->
  on_byte Image_open LF w =
  ({| rx_mode := RX_STRING; rx_buf := []; img := img w; idx := Some 12;
      gui := gui w; log := log w ++ [Frame RX_EIML (payload_of w)] |}, Ok tt).
Proof.
  unfold payload_of, header_width, header_height, pixel_bytes.
  destruct w as [mo buf im i g lg]. cbn [rx_mode rx_buf img gui log].
  intros -> Hdec Hfmt Hm Hlen.
  eiml_start Hdec Hfmt.
  destruct Hm as [[-> ->]|[-> ->]];
    [change (EIML_GRAYSCALE =? EIML_RGB888)%N with false;
     change (EIML_GRAYSCALE =? EIML_GRAYSCALE)%N with true
    |change (EIML_RGB888 =? EIML_RGB888)%N with true];
    cbv beta iota; rewrite (frombytes_short _ _ _ _ Hlen); reflexivity.
Qed.

(** An RGB888 frame with enough pixel data is handed to the GUI as it
    is. *)
Lemma eiml_rgb w msg :
  rx_mode w = RX_EIML ->
  b64decode (payload_of w) = Ok msg ->
  index msg 3 = Ok EIML_RGB888 ->
  (header_width msg * header_height msg * 3 <= N.of_nat (length (pixel_bytes msg)))%N ->
  let im := {| im_mode := RGB; im_width := header_width msg;
               im_height := header_height msg;
               im_data := firstn (N.to_nat (header_width msg * header_height msg * 3))
                                 (pixel_bytes msg) |} in
  on_byte Image_open LF w =
  ({| rx_mode := RX_STRING; rx_buf := []; img := Some im; idx := Some 12;
      gui := fst (update_image im (gui w));
      log := log w ++ [Frame RX_EIML (payload_of w)] ++ [Published im] |}, Ok tt).
Proof.
  unfold payload_of, header_width, header_height, pixel_bytes.
  destruct w as [mo buf im i g lg]. cbn [rx_mode rx_buf img gui log].
  intros -> Hdec Hfmt Hlen.
  eiml_start Hdec Hfmt.
  change (EIML_RGB888 =? EIML_RGB888)%N with true. cbv beta iota.
  rewrite (frombytes_enough RGB _ _ _ Hlen). cbv beta iota.
  destruct (update_image _ g) as [g0 [u|e]]; cbn [fst];
    rewrite <- app_assoc; reflexivity.
Qed.

(** A grayscale frame with enough pixel data is converted to RGB and
    handed to the GUI. *)
Lemma eiml_gray w msg :
  rx_mode w = RX_EIML ->
  b64decode (payload_of w) = Ok msg ->
  index msg 3 = Ok EIML_GRAYSCALE ->
  (header_width msg * header_height msg * 1 <= N.of_nat (length (pixel_bytes msg)))%N ->
  let im := Image_convert_RGB
              {| im_mode := L; im_width := header_width msg;
                 im_height := header_height msg;
                 im_data := firstn (N.to_nat (header_width msg * header_height msg * 1))
                                   (pixel_bytes msg) |} in
  on_byte Image_open LF w =
  ({| rx_mode := RX_STRING; rx_buf := []; img := Some im; idx := Some 12;
      gui := fst (update_image im (gui w));
      log := log w ++ [Frame RX_EIML (payload_of w)] ++ [Published im] |}, Ok tt).
Proof.
  unfold payload_of, header_width, header_height, pixel_bytes.
  destruct w as [mo buf im i g lg]. cbn [rx_mode rx_buf img gui log].
  intros -> Hdec Hfmt Hlen.
  eiml_start Hdec Hfmt.
  change (EIML_GRAYSCALE =? EIML_RGB888)%N with false.
  change (EIML_GRAYSCALE =? EIML_GRAYSCALE)%N with true. cbv beta iota.
  rewrite (frombytes_enough L _ _ _ Hlen). cbv beta iota.
  destruct (update_image _ g) as [g0 [u|e]]; cbn [fst];
    rewrite <- app_assoc; reflexivity.
Qed.

(** A frame whose format byte is neither grayscale nor RGB888 assigns
    nothing to [img]: when an earlier frame left an image there, that
    image is handed to the GUI again. *)
Lemma eiml_other_format w msg fmt old :
  rx_mode w = RX_EIML ->
  b64decode (payload_of w) = Ok msg ->
  index msg 3 = Ok fmt ->
  fmt <> EIML_RGB888 -> fmt <> EIML_GRAYSCALE ->
  img w = Some old ->
  on_byte Image_open LF w =
  ({| rx_mode := RX_STRING; rx_buf := []; img := Some old; idx := Some 12;
      gui := fst (update_image old (gui w));
      log := log w ++ [Frame RX_EIML (payload_of w)] ++ [Published old] |}, Ok tt).
Proof.
  unfold payload_of.
  destruct w as [mo buf im i g lg]. cbn [rx_mode rx_buf img gui log].
  intros -> Hdec Hfmt H2 H1 ->.
  eiml_start Hdec Hfmt.
  destruct (N.eqb_spec fmt EIML_RGB888); [congruence|].
  destruct (N.eqb_spec fmt EIML_GRAYSCALE); [congruence|].
  cbv beta iota.
  destruct (update_image _ g) as [g0 [u|e]]; cbn [fst];
    rewrite <- app_assoc; reflexivity.
Qed.

(** The same frame while [img] is still unbound is dropped. *)
Lemma eiml_other_format_unbound w msg fmt :
  rx_mode w = RX_EIML ->
  b64decode (payload_of w) = Ok msg ->
  index msg 3 = Ok fmt ->
  fmt <> EIML_RGB888 -> fmt <> EIML_GRAYSCALE ->
  img w = None ->
  on_byte Image_open LF w =
  ({| rx_mode := RX_STRING; rx_buf := []; img := None; idx := Some 12;
      gui := gui w; log := log w ++ [Frame RX_EIML (payload_of w)] |}, Ok tt).
Proof.
  unfold payload_of.
  destruct w as [mo buf im i g lg]. cbn [rx_mode rx_buf img gui log].
  intros -> Hdec Hfmt H2 H1 ->.
  eiml_start Hdec Hfmt.
  destruct (N.eqb_spec fmt EIML_RGB888); [congruence|].
  destruct (N.eqb_spec fmt EIML_GRAYSCALE); [congruence|].
  reflexivity.
Qed.

End Decoder.

(** * Facts about the hand-off *)

Section Mailbox.

Variable Image_resize : Image -> N -> N -> result Image.
Variable PhotoImage : Image -> result unit.

(** Rendering draws the image it was given or raises. *)
Lemma render_cases var_big o :
  (exists e, render Image_resize PhotoImage var_big o = Raise e)
  \/ (exists im, o = Some im
                 /\ render Image_resize PhotoImage var_big o = Ok im).
Proof.
  destruct o as [im|]; [|left; eexists; reflexivity].
  unfold render.
  destruct (if var_big then _ else _) as [disp|e]; [|left; eexists; reflexivity].
  destruct (PhotoImage disp) as [u|e]; [|left; eexists; reflexivity].
  right. exists im. split; reflexivity.
Qed.

(** What a tick of the display shows is the current [self.img] or
    nothing. *)
Lemma refresh_image_shows var_big g :
  snd (refresh_image Image_resize PhotoImage var_big g) = None
  \/ snd (refresh_image Image_resize PhotoImage var_big g) = gui_img g.
Proof.
  destruct g as [o [|]]; cbn [refresh_image acquire_nonblocking img_mutex
                               gui_img snd]; [left; reflexivity|].
  destruct (render_cases var_big o) as [[e ->]|(im & -> & ->)]; auto.
Qed.

(** A tick changes nothing but the lock, and leaves it held. *)
Lemma refresh_image_state var_big g :
  fst (refresh_image Image_resize PhotoImage var_big g)
  = {| gui_img := gui_img g; img_mutex := true |}.
Proof. destruct g as [o [|]]; reflexivity. Qed.

(** [update_image] is its two statements one after the other. *)
Lemma update_image_steps im g :
  update_image im g = release_mutex (assign_img im g).
Proof. reflexivity. Qed.

End Mailbox.

(** * Facts about [connect] *)

Section Connect.

Variable os_open : string -> Z -> bool.

Lemma connect_spec name baud s :
  Port.connect os_open name baud s =
  if (baud <? 0)%Z then
    ({| Port.is_open := false; Port.port := Some name;
        Port.baudrate := Port.baudrate s;
        Port.trace := Port.trace s ++ (if Port.is_open s then [Port.SysClose] else []) |},
     Raise ValueError)
  else
    ({| Port.is_open := os_open name baud; Port.port := Some name;
        Port.baudrate := baud;
        Port.trace := (Port.trace s ++ (if Port.is_open s then [Port.SysClose] else []))
                      ++ [Port.SysOpen name baud] |},
     Ok (if os_open name baud then Port.OK else Port.ERR)).
Proof.
  destruct s as [[|] p b t]; unfold Port.connect, Port.set_port, Port.set_baudrate,
    Port.close, Port.open, bind, try_except, gets, when, modify, pass, ret, raise;
    cbn; destruct (baud <? 0)%Z; cbn; rewrite ?app_nil_r;
    try reflexivity; destruct (os_open name baud); reflexivity.
Qed.

End Connect.

(** * What the scanner hands to the decoders *)

Section Framing.

Variable Image_open : bytes -> result Image.

Lemma last_snoc_LF buf d : last (buf ++ [LF]) d = LF.
Proof. apply last_last. Qed.

(** A buffer that just received a line feed is neither marker. *)
Lemma marker_not_LF buf :
  bytes_eqb (buf ++ [LF]) JPEG_SOF_B64 = false
  /\ bytes_eqb (buf ++ [LF]) EIML_SOF_B64 = false.
Proof.
  split.
  - destruct (bytes_eqb (buf ++ [LF]) JPEG_SOF_B64) eqn:E; [|reflexivity].
    apply bytes_eqb_eq in E. apply (f_equal (fun l => last l LF)) in E.
    rewrite last_snoc_LF in E. discriminate.
  - destruct (bytes_eqb (buf ++ [LF]) EIML_SOF_B64) eqn:E; [|reflexivity].
    apply bytes_eqb_eq in E. apply (f_equal (fun l => last l LF)) in E.
    rewrite last_snoc_LF in E. discriminate.
Qed.

Lemma on_byte_other c w :
  N_of_ascii c <> 10%N ->
  on_byte Image_open c w =
  ({| rx_mode := next_mode (rx_mode w) (rx_buf w ++ [c]);
      rx_buf := rx_buf w ++ [c]; img := img w; idx := idx w;
      gui := gui w; log := log w |}, Ok tt).
Proof.
  intros Hc. destruct w as [m buf im i g lg]. unfold next_mode.
  cbn [rx_mode rx_buf img idx gui log].
  destruct m; run_stmt;
    [destruct (bytes_eqb (buf ++ [c]) JPEG_SOF_B64) eqn:EJ;
     destruct (bytes_eqb (buf ++ [c]) EIML_SOF_B64) eqn:EE | |];
    cbv beta iota; rewrite index_last_snoc; cbv beta iota;
    (destruct (N.eqb_spec (N_of_ascii c) 10); [congruence | reflexivity]).
Qed.

(** A line feed while no image is collected: the line goes to [print]
    when it decodes as UTF-8, and is dropped in silence when it does
    not. *)
Lemma on_byte_LF_string w :
  rx_mode w = RX_STRING ->
  on_byte Image_open LF w =
  ({| rx_mode := RX_STRING; rx_buf := []; img := img w; idx := idx w;
      gui := gui w;
      log := log w ++ (if decodes_utf8 (rx_buf w ++ [LF])
                       then [Recv (rx_buf w ++ [LF])] else []) |}, Ok tt).
Proof.
  destruct w as [m buf im i g lg]. cbn [rx_mode rx_buf img idx gui log].
  intros ->. destruct (marker_not_LF buf) as [EJ EE].
  run_stmt. rewrite EJ, EE. cbv beta iota.
  rewrite index_last_snoc. cbv beta iota. rewrite LF_is_10. cbv beta iota.
  destruct (decodes_utf8 (buf ++ [LF])); cbn [negb]; cbv beta iota;
    rewrite ?app_nil_r; reflexivity.
Qed.

(** Case analysis on the outcome of every library call and on the local
    variables read, innermost first. *)
Ltac split_calls :=
  repeat (match goal with
          | |- context [match b64decode ?x with _ => _ end] =>
              destruct (b64decode x)
          | |- context [match Image_open ?x with _ => _ end] =>
              destruct (Image_open x)
          | |- context [match index ?x ?k with _ => _ end] =>
              destruct (index x k)
          | |- context [if (?x =? ?y)%N then _ else _] =>
              destruct (x =? y)%N
          | |- context [match Image_frombytes ?m ?x ?y ?z with _ => _ end] =>
              destruct (Image_frombytes m x y z)
          | |- context [match update_image ?x ?y with _ => _ end] =>
              destruct (update_image x y) as [? [[]|?]]
          | |- context [match ?x with Some _ => _ | None => _ end] =>
              is_var x; destruct x
          end; cbv beta iota).

(** A line feed while an image is collected: the mode returns to
    [RX_STRING], the payload is the buffer less its last two bytes, and
    what follows in the log is at most one image handed to the GUI. *)
Lemma on_byte_LF_image w :
  rx_mode w <> RX_STRING ->
  exists pubs,
    rx_mode (fst (on_byte Image_open LF w)) = RX_STRING
    /\ log (fst (on_byte Image_open LF w))
       = log w ++ Frame (rx_mode w) (payload_of w) :: pubs
    /\ Forall is_published pubs
    /\ length pubs <= 1.
Proof.
  unfold payload_of.
  destruct w as [m buf im i g lg]. cbn [rx_mode rx_buf img idx gui log].
  intros Hm. destruct m; [congruence| |];
    run_stmt; rewrite index_last_snoc; cbv beta iota; rewrite LF_is_10;
    cbv beta iota; split_calls;
    first [ exists []; repeat split; [constructor | cbn; lia]
          | eexists [_]; repeat split;
            [rewrite <- app_assoc; reflexivity
            | repeat constructor | cbn; lia] ].
Qed.

Lemma LF_from_code c : N_of_ascii c = 10%N -> c = LF.
Proof.
  intros H. rewrite <- (ascii_N_embedding c), H. reflexivity.
Qed.

Lemma payload_of_removelast w : payload_of w = removelast (rx_buf w).
Proof. apply slice_to_neg_snoc. Qed.








End Framing.

Section RgbScenario.

Variable Image_open : bytes -> result Image.
Variable data : bytes.

Lemma header_4x2_text :
  b64encode (header_4x2 ++ data) = EIML_SOF_B64 ++ b "AgQAAAACAAAA" ++ b64encode data.
Proof. reflexivity. Qed.

Lemma header_4x2_fields :
  index (header_4x2 ++ data) 3 = Ok EIML_RGB888
  /\ header_width (header_4x2 ++ data) = 4%N
  /\ header_height (header_4x2 ++ data) = 2%N
  /\ pixel_bytes (header_4x2 ++ data) = data.
Proof. repeat split. Qed.

(** The scanner collects the whole line. *)
Lemma header_4x2_collected :
  feed Image_open (b64encode (header_4x2 ++ data) ++ [CR]) world_init
  = {| rx_mode := RX_EIML; rx_buf := b64encode (header_4x2 ++ data) ++ [CR];
       img := None; idx := None; gui := GUI_init; log := [] |}.
Proof.
  assert (Hno : Forall (fun c => N_of_ascii c <> 10%N)
                  (b64encode (header_4x2 ++ data) ++ [CR])).
  { apply Forall_app. split; [apply b64encode_no_LF|].
    repeat constructor. vm_compute. discriminate. }
  rewrite header_4x2_text in *. rewrite <- app_assoc in *.
  apply Forall_app in Hno. destruct Hno as [_ Hno].
  rewrite feed_app.
  change (feed Image_open EIML_SOF_B64 world_init)
    with {| rx_mode := RX_EIML; rx_buf := EIML_SOF_B64; img := None;
            idx := None; gui := GUI_init; log := [] |}.
  rewrite feed_collect; [reflexivity | discriminate | exact Hno].
Qed.

End RgbScenario.

Section Replication.

(** The pixel [k] of a grayscale image is at the positions [3k], [3k+1]
    and [3k+2] of its conversion. *)
Lemma replicate_nth (l : bytes) (k : nat) :
  nth_error (flat_map (fun p => [p; p; p]) l) (3 * k) = nth_error l k
  /\ nth_error (flat_map (fun p => [p; p; p]) l) (3 * k + 1) = nth_error l k
  /\ nth_error (flat_map (fun p => [p; p; p]) l) (3 * k + 2) = nth_error l k.
Proof.
  revert k. induction l as [|p l IH]; intros [|k].
  - repeat split.
  - repeat split.
  - repeat split.
  - replace (3 * S k) with (S (S (S (3 * k)))) by lia.
    cbn [flat_map app Nat.add nth_error]. apply IH.
Qed.

Lemma replicate_length (l : bytes) :
  length (flat_map (fun p => [p; p; p]) l) = 3 * length l.
Proof. induction l as [|p l IH]; cbn [flat_map app length]; lia. Qed.

Lemma update_image_img im g : gui_img (fst (update_image im g)) = Some im.
Proof. destruct g as [o [|]]; reflexivity. Qed.

End Replication.

(** * The statements of the specification *)

(** C1 (the code departs from it): a frame whose format byte is 0 should be
    dropped with nothing handed to the GUI.  The loop takes a valid 1x1
    RGB888 frame and then a frame with format byte 0: the second frame
    assigns nothing to [img], and [update_image] is called with the image
    of the first frame, which is published a second time. *)
Theorem C1_reserved_frame_republishes (Image_open : bytes -> result Image) :
  let first := eiml_msg 2 1 1 [10; 20; 30]%N in
  let second := eiml_msg 0 1 1 [40; 50; 60]%N in
  let stream := frame_line first ++ frame_line second in
  let im := {| im_mode := RGB; im_width := 1; im_height := 1;
               im_data := map byte [10; 20; 30]%N |} in
  run Image_open [stream] (length stream) world_init
  = ([], {| rx_mode := RX_STRING; rx_buf := []; img := Some im;
            idx := Some 12;
            gui := {| gui_img := Some im; img_mutex := false |};
            log := [Frame RX_EIML (b64encode first); Published im;
                    Frame RX_EIML (b64encode second); Published im] |}).
Proof. vm_compute. reflexivity. Qed.

(** C2: an EIML frame of format grayscale or RGB888 whose bytes after the
    12-byte header are fewer than width * height * bytes per pixel is
    rejected: nothing is handed to the GUI, no read outside the message
    takes place (the step ends normally), the buffer is cleared and the
    mode is [RX_STRING] again, so the loop goes on with the next line. *)
Theorem C2_short_payload_rejected
    (Image_open : bytes -> result Image) (w : world) (msg : bytes)
    (fmt : N) (m : mode) :
  rx_mode w = RX_EIML ->
  b64decode (payload_of w) = Ok msg ->
  index msg 3 = Ok fmt ->
  (fmt = EIML_GRAYSCALE /\ m = L) \/ (fmt = EIML_RGB888 /\ m = RGB) ->
  (N.of_nat (length (pixel_bytes msg))
   < header_width msg * header_height msg * bytes_per_pixel m)%N ->
  on_byte Image_open LF w =
  ({| rx_mode := RX_STRING; rx_buf := []; img := img w; idx := Some 12;
      gui := gui w; log := log w ++ [Frame RX_EIML (payload_of w)] |}, Ok tt).
Proof. apply eiml_short. Qed.

(** The header announces 4 x 2 RGB888 pixels, 20 bytes follow. *)
Lemma C2_witness :
  let msg := eiml_msg 2 4 2 (map N.of_nat (seq 1 20)) in
  let w := world_after (b64encode msg ++ [CR]) in
  on_byte no_jpeg LF w =
  ({| rx_mode := RX_STRING; rx_buf := []; img := None; idx := Some 12;
      gui := GUI_init; log := [Frame RX_EIML (b64encode msg)] |}, Ok tt).
Proof.
  intros msg w.
  apply (C2_short_payload_rejected no_jpeg w msg 2 RGB).
  - reflexivity.
  - vm_compute. reflexivity.
  - reflexivity.
  - right. split; reflexivity.
  - vm_compute. reflexivity.
Defined.

(** C3 (the code departs from it): [update_image] called twice with no
    [refresh_image] in between should succeed both times.  The second
    call stores its image over the first and then fails: the lock was
    released by the first call and is held by nobody, so [release()]
    raises [RuntimeError].  This holds for every pair of images and every
    state of the GUI object, in particular from the state [__init__]
    leaves. *)
Theorem C3_second_publish_raises :
  (forall A B g,
     update_image B (fst (update_image A g))
     = ({| gui_img := Some B; img_mutex := false |}, Raise RuntimeError))
  /\ update_image frame_A GUI_init
     = ({| gui_img := Some frame_A; img_mutex := false |}, Ok tt)
  /\ update_image frame_B (fst (update_image frame_A GUI_init))
     = ({| gui_img := Some frame_B; img_mutex := false |}, Raise RuntimeError).
Proof.
  split; [|split; reflexivity].
  intros A B [o [|]]; reflexivity.
Qed.

(** C4: however the stream is cut into chunks, once the loop has had
    enough turns to take every byte, the world (mode, buffer, local
    variables, GUI and the sequence of frames handed to the decoders) is
    the one reached when the whole stream arrives as one chunk; both are
    the world reached by taking the bytes one after the other. *)
Theorem C4_chunk_independence
    (Image_open : bytes -> result Image) (chunks : list bytes)
    (n m : nat) (w : world) :
  length (concat chunks) <= n ->
  length (concat chunks) <= m ->
  run Image_open chunks n w = run Image_open [concat chunks] m w
  /\ run Image_open chunks n w = ([], feed Image_open (concat chunks) w).
Proof.
  intros Hn Hm. rewrite (run_feed Image_open chunks n w Hn).
  split; [|reflexivity].
  rewrite run_feed by (cbn [concat]; rewrite app_nil_r; exact Hm).
  cbn [concat]. now rewrite app_nil_r.
Qed.

(** A text line and an image line cut in the middle of the marker, of
    the payload and of the line ending. *)
Lemma C4_witness :
  let line := frame_line (eiml_msg 2 1 1 [10; 20; 30]%N) in
  let chunks := [b "hi"; [LF] ++ firstn 2 line; firstn 9 (skipn 2 line);
                 []; firstn 10 (skipn 11 line); skipn 21 line] in
  run no_jpeg chunks 25 world_init = run no_jpeg [concat chunks] 30 world_init
  /\ run no_jpeg chunks 25 world_init = ([], feed no_jpeg (concat chunks) world_init).
Proof.
  intros line chunks.
  apply (C4_chunk_independence no_jpeg chunks 25 30 world_init);
    vm_compute; lia.
Defined.

Section MarkerCheck.

Variable Image_open : bytes -> result Image.



End MarkerCheck.



(** C8, as stated, fails: a pending image is not always shown.  The
    line [/6D/AgE=] publishes an image 1 wide and 0 high; with Embiggen
    set the tick takes the lock, the resize to 4 x 0 raises inside the
    [try], and nothing is drawn. *)
Lemma C8_counterexample :
  let g := gui (world_after (b "/6D/AgE=" ++ [CR; LF])) in
  g = {| gui_img := Some {| im_mode := RGB; im_width := 1; im_height := 0;
                            im_data := [] |};
         img_mutex := false |}
  /\ refresh_image resize_nonempty photo_any true g
     = ({| gui_img := gui_img g; img_mutex := true |}, None).
Proof. split; reflexivity. Qed.

(** C8 (amended): [refresh_image] is a total function whose only
    operation on the lock is the non-blocking [acquire].  On an empty
    hand-off (the lock is held: as [__init__] leaves it, or after a
    [refresh_image] with no [update_image] since) it shows nothing and
    changes nothing.  When an image is pending it takes the lock, which
    empties the hand-off, and shows that image if rendering it goes
    through; when rendering raises, the exception is swallowed and nothing
    is shown. *)
Theorem C8_try_take
    (Image_resize : Image -> N -> N -> result Image)
    (PhotoImage : Image -> result unit) :
  (forall var_big o,
     refresh_image Image_resize PhotoImage var_big
       {| gui_img := o; img_mutex := true |}
     = ({| gui_img := o; img_mutex := true |}, None))
  /\ (forall var_big,
        refresh_image Image_resize PhotoImage var_big GUI_init
        = (GUI_init, None))
  /\ (forall var_big var_big' g,
        snd (refresh_image Image_resize PhotoImage var_big'
               (fst (refresh_image Image_resize PhotoImage var_big g)))
        = None)
  /\ (forall var_big f,
        refresh_image Image_resize PhotoImage var_big
          {| gui_img := Some f; img_mutex := false |}
        = ({| gui_img := Some f; img_mutex := true |},
           if is_ok (render Image_resize PhotoImage var_big (Some f))
           then Some f else None)).
Proof.
  repeat split.
  - intros var_big var_big' [o [|]]; reflexivity.
  - intros var_big f.
    cbn [refresh_image acquire_nonblocking img_mutex gui_img].
    destruct (render_cases Image_resize PhotoImage var_big (Some f))
      as [[e ->]|(im & [= <-] & ->)]; reflexivity.
Qed.

(** C9: [connect] first closes the port (one request to the system when
    it was open, none when it was closed), then asks once for the named
    device at the given rate.  The outcome is returned to the caller: [OK]
    when the device opened, [ERR] when it did not, [ValueError] for a
    negative rate (no request to open is made then).  The port is open
    afterwards exactly when the result is [OK], and at most one request to
    open was made. *)
Theorem C9_connect
    (os_open : string -> Z -> bool) (name : string) (baud : Z)
    (s : Port.Serial) :
  let s' := fst (Port.connect os_open name baud s) in
  let r := snd (Port.connect os_open name baud s) in
  Port.trace s'
  = Port.trace s
    ++ (if Port.is_open s then [Port.SysClose] else [])
    ++ (if (baud <? 0)%Z then [] else [Port.SysOpen name baud])
  /\ r = (if (baud <? 0)%Z then Raise ValueError
          else Ok (if os_open name baud then Port.OK else Port.ERR))
  /\ Port.is_open s' = (match r with
                        | Ok c => (c =? Port.OK)%N
                        | Raise _ => false
                        end)
  /\ Port.open_attempts (Port.trace s') <= Port.open_attempts (Port.trace s) + 1.
Proof.
  cbv zeta. rewrite connect_spec.
  destruct (baud <? 0)%Z; cbn [fst snd Port.trace Port.is_open].
  - rewrite app_nil_r. repeat split.
    unfold Port.open_attempts. rewrite filter_app, length_app.
    destruct (Port.is_open s); cbn; lia.
  - rewrite <- app_assoc. repeat split.
    + destruct (os_open name baud); reflexivity.
    + unfold Port.open_attempts. rewrite !filter_app, !length_app.
      destruct (Port.is_open s); cbn; lia.
Qed.

(** C10: when a line feed ends the line of an image (mode [RX_JPEG] or
    [RX_EIML]), the payload handed to the decoder is the buffer less its
    last two bytes, whatever the byte before the line feed is: if the
    buffer held [text ++ [c]] before the line feed, the payload is
    [text], so a line that ends in a line feed alone loses its last
    character [c]. *)
Theorem C10_two_bytes_cut
    (Image_open : bytes -> result Image) (w : world) (text : bytes)
    (c : ascii) :
  rx_mode w <> RX_STRING ->
  rx_buf w = text ++ [c] ->
  payload_of w = text
  /\ nth_error (log (fst (on_byte Image_open LF w))) (length (log w))
     = Some (Frame (rx_mode w) text).
Proof.
  intros Hm Hbuf.
  assert (Hp : payload_of w = text).
  { rewrite payload_of_removelast, Hbuf. apply removelast_last. }
  split; [exact Hp|].
  destruct (on_byte_LF_image Image_open w Hm) as (pubs & _ & Hlog & _).
  rewrite Hlog, Hp, nth_error_app2 by lia.
  rewrite Nat.sub_diag. reflexivity.
Qed.

(** The line [/6D/AAAA] ended by a line feed alone: the payload is
    [/6D/AAA]. *)
Lemma C10_witness :
  let w := world_after (b "/6D/AAAA") in
  payload_of w = b "/6D/AAA"
  /\ nth_error (log (fst (on_byte no_jpeg LF w))) (length (log w))
     = Some (Frame (rx_mode w) (b "/6D/AAA")).
Proof.
  intros w.
  apply (C10_two_bytes_cut no_jpeg w (b "/6D/AAA") "A"%char).
  - vm_compute. discriminate.
  - vm_compute. reflexivity.
Defined.

(** C6: the stream is the base64 text of the 12 bytes FF A0 FF 02
    04 00 00 00 02 00 00 00 followed by 24 bytes of RGB data, then
    carriage return and line feed.  However it is cut into chunks, once
    the loop has taken it exactly one image has been handed to the GUI:
    4 wide, 2 high, its pixels the 24 bytes in the order received. *)
Theorem C6_rgb_frame_published
    (Image_open : bytes -> result Image) (data : bytes)
    (chunks : list bytes) (n : nat) :
  length data = 24 ->
  concat chunks = b64encode (header_4x2 ++ data) ++ [CR; LF] ->
  length (concat chunks) <= n ->
  let im := {| im_mode := RGB; im_width := 4; im_height := 2;
               im_data := data |} in
  run Image_open chunks n world_init
  = ([], {| rx_mode := RX_STRING; rx_buf := []; img := Some im;
            idx := Some 12;
            gui := {| gui_img := Some im; img_mutex := false |};
            log := [Frame RX_EIML (b64encode (header_4x2 ++ data));
                    Published im] |}).
Proof.
  intros Hlen Hstream Hn im.
  rewrite (run_feed Image_open chunks n world_init Hn), Hstream.
  change [CR; LF] with ([CR] ++ [LF]). rewrite app_assoc, feed_app.
  rewrite header_4x2_collected. cbn [feed]. f_equal.
  destruct (header_4x2_fields data) as (Hfmt & Hw & Hh & Hpix).
  set (w := {| rx_mode := RX_EIML;
               rx_buf := b64encode (header_4x2 ++ data) ++ [CR];
               img := None; idx := None; gui := GUI_init; log := [] |}).
  assert (Hpay : payload_of w = b64encode (header_4x2 ++ data)).
  { unfold payload_of, w. cbn [rx_buf]. rewrite <- app_assoc.
    apply slice_to_neg_snoc2. }
  rewrite (eiml_rgb Image_open w (header_4x2 ++ data)).
  - rewrite Hw, Hh, Hpix, Hpay. cbn [fst].
    change (N.to_nat (4 * 2 * 3)) with 24. rewrite <- Hlen, firstn_all.
    reflexivity.
  - reflexivity.
  - rewrite Hpay. apply b64decode_b64encode.
  - exact Hfmt.
  - rewrite Hw, Hh, Hpix, Hlen. vm_compute. discriminate.
Qed.

(** The line arrives in three chunks. *)
Lemma C6_witness :
  let data := map byte (map N.of_nat (seq 101 24)) in
  let line := b64encode (header_4x2 ++ data) ++ [CR; LF] in
  let im := {| im_mode := RGB; im_width := 4; im_height := 2;
               im_data := data |} in
  run no_jpeg [firstn 3 line; firstn 30 (skipn 3 line); skipn 33 line] 50
      world_init
  = ([], {| rx_mode := RX_STRING; rx_buf := []; img := Some im;
            idx := Some 12;
            gui := {| gui_img := Some im; img_mutex := false |};
            log := [Frame RX_EIML (b64encode (header_4x2 ++ data));
                    Published im] |}).
Proof.
  intros data line im.
  apply (C6_rgb_frame_published no_jpeg data
           [firstn 3 line; firstn 30 (skipn 3 line); skipn 33 line] 50).
  - reflexivity.
  - vm_compute. reflexivity.
  - vm_compute. lia.
Defined.

(** C7: a grayscale EIML frame with exactly width * height bytes after the
    header is handed to the GUI as an RGB image of that size whose buffer
    has three bytes per input byte, the three all equal to the input
    byte. *)
Theorem C7_grayscale_replicated
    (Image_open : bytes -> result Image) (w : world) (msg : bytes) :
  rx_mode w = RX_EIML ->
  b64decode (payload_of w) = Ok msg ->
  index msg 3 = Ok EIML_GRAYSCALE ->
  N.of_nat (length (pixel_bytes msg)) = (header_width msg * header_height msg)%N ->
  exists im,
    log (fst (on_byte Image_open LF w))
    = log w ++ [Frame RX_EIML (payload_of w); Published im]
    /\ gui_img (gui (fst (on_byte Image_open LF w))) = Some im
    /\ im_mode im = RGB
    /\ im_width im = header_width msg
    /\ im_height im = header_height msg
    /\ length (im_data im) = 3 * length (pixel_bytes msg)
    /\ forall k,
         nth_error (im_data im) (3 * k) = nth_error (pixel_bytes msg) k
         /\ nth_error (im_data im) (3 * k + 1) = nth_error (pixel_bytes msg) k
         /\ nth_error (im_data im) (3 * k + 2) = nth_error (pixel_bytes msg) k.
Proof.
  intros Hm Hdec Hfmt Hlen.
  rewrite (eiml_gray Image_open w msg Hm Hdec Hfmt) by lia.
  rewrite N.mul_1_r, <- Hlen, Nat2N.id, firstn_all.
  eexists. cbn [fst log gui]. rewrite update_image_img.
  repeat split.
  - cbn. apply replicate_length.
  - apply replicate_nth.
  - apply replicate_nth.
  - apply replicate_nth.
Qed.

(** A 3 x 2 grayscale frame. *)
Lemma C7_witness :
  let msg := eiml_msg 1 3 2 [0; 50; 100; 150; 200; 250]%N in
  let w := world_after (b64encode msg ++ [CR]) in
  exists im,
    log (fst (on_byte no_jpeg LF w))
    = log w ++ [Frame RX_EIML (payload_of w); Published im]
    /\ gui_img (gui (fst (on_byte no_jpeg LF w))) = Some im
    /\ im_mode im = RGB
    /\ im_width im = header_width msg
    /\ im_height im = header_height msg
    /\ length (im_data im) = 3 * length (pixel_bytes msg)
    /\ forall k,
         nth_error (im_data im) (3 * k) = nth_error (pixel_bytes msg) k
         /\ nth_error (im_data im) (3 * k + 1) = nth_error (pixel_bytes msg) k
         /\ nth_error (im_data im) (3 * k + 2) = nth_error (pixel_bytes msg) k.
Proof.
  intros msg w.
  apply (C7_grayscale_replicated no_jpeg w msg).
  - reflexivity.
  - vm_compute. reflexivity.
  - reflexivity.
  - vm_compute. reflexivity.
Defined.

(** * Further properties of the receive loop *)

(** Case analysis on the outcome of every library call and on the local
    variables a step reads, innermost first. *)
Ltac split_outcomes :=
  repeat (match goal with
          | |- context [match b64decode ?x with _ => _ end] =>
              destruct (b64decode x)
          | |- context [match ?io ?x with Ok _ => _ | Raise _ => _ end] =>
              is_var io; destruct (io x)
          | |- context [match index ?x ?k with _ => _ end] =>
              destruct (index x k)
          | |- context [if (?x =? ?y)%N then _ else _] =>
              destruct (x =? y)%N
          | |- context [match Image_frombytes ?m ?x ?y ?z with _ => _ end] =>
              destruct (Image_frombytes m x y z)
          | |- context [match update_image ?x ?y with _ => _ end] =>
              destruct (update_image x y) as [? [[]|?]]
          | |- context [match ?x with Some _ => _ | None => _ end] =>
              is_var x; destruct x
          end; cbv beta iota).

(** The same, keeping the equation of every call of [update_image]. *)
Ltac split_outcomes_eq :=
  repeat (match goal with
          | |- context [match b64decode ?x with _ => _ end] =>
              destruct (b64decode x)
          | |- context [match ?io ?x with Ok _ => _ | Raise _ => _ end] =>
              is_var io; destruct (io x)
          | |- context [match index ?x ?k with _ => _ end] =>
              destruct (index x k)
          | |- context [if (?x =? ?y)%N then _ else _] =>
              destruct (x =? y)%N
          | |- context [match Image_frombytes ?m ?x ?y ?z with _ => _ end] =>
              destruct (Image_frombytes m x y z)
          | |- context [match update_image ?x ?y with _ => _ end] =>
              let E := fresh "Eupd" in
              destruct (update_image x y) as [? [[]|?]] eqn:E
          | |- context [match ?x with Some _ => _ | None => _ end] =>
              is_var x; destruct x
          end; cbv beta iota).

(** A line feed arrives: the step up to the choice of the branch. *)
Ltac on_LF :=
  run_stmt; rewrite index_last_snoc; cbv beta iota; rewrite LF_is_10;
  cbv beta iota.

Section TextLines.

Variable Image_open : bytes -> result Image.

(** While no prefix of what is in the buffer equals a marker, the bytes
    of a text join the buffer and the mode stays [RX_STRING]. *)
Lemma feed_text text : forall w,
  rx_mode w = RX_STRING ->
  Forall (fun c => N_of_ascii c <> 10%N) text ->
  (forall k, bytes_eqb (rx_buf w ++ firstn k text) JPEG_SOF_B64 = false
             /\ bytes_eqb (rx_buf w ++ firstn k text) EIML_SOF_B64 = false) ->
  feed Image_open text w = with_buf w (rx_buf w ++ text).
Proof.
  induction text as [|c text IH]; intros w Hm Hno Hk.
  - destruct w. unfold with_buf. cbn. now rewrite app_nil_r.
  - inversion Hno as [|c' t' Hc Ht]; subst.
    cbn [feed]. rewrite (on_byte_other Image_open c w Hc). cbn [fst].
    destruct (Hk 1) as [HJ HE]. cbn [firstn] in HJ, HE.
    assert (Hn : next_mode (rx_mode w) (rx_buf w ++ [c]) = RX_STRING)
      by (rewrite Hm; unfold next_mode; now rewrite HE, HJ).
    rewrite Hn, IH.
    + destruct w. unfold with_buf. cbn in *. subst. now rewrite <- app_assoc.
    + reflexivity.
    + exact Ht.
    + intros k. cbn [rx_buf]. rewrite <- app_assoc. exact (Hk (S k)).
Qed.

Lemma prefix_not_marker (text m : bytes) k :
  length m = 4 -> firstn 4 text <> m -> bytes_eqb (firstn k text) m = false.
Proof.
  intros Hm Hne. destruct (bytes_eqb (firstn k text) m) eqn:E; [|reflexivity].
  apply bytes_eqb_eq in E. exfalso. apply Hne.
  assert (HL : Nat.min k (length text) = 4)
    by (rewrite <- length_firstn, E; exact Hm).
  assert (H4 : firstn 4 (firstn k text) = firstn 4 text).
  { rewrite firstn_firstn. replace (Nat.min 4 k) with 4 by lia. reflexivity. }
  rewrite <- H4, E, <- Hm. apply firstn_all.
Qed.

End TextLines.

Section Lines.

Variable Image_open : bytes -> result Image.

Lemma not_LF_SOF :
  Forall (fun c => N_of_ascii c <> 10%N) EIML_SOF_B64
  /\ Forall (fun c => N_of_ascii c <> 10%N) JPEG_SOF_B64
  /\ N_of_ascii CR <> 10%N.
Proof. repeat split; repeat constructor; vm_compute; discriminate. Qed.

(** From an empty buffer in mode [RX_STRING] the four characters of a
    marker switch the mode. *)
Lemma feed_marker w :
  rx_mode w = RX_STRING -> rx_buf w = [] ->
  feed Image_open EIML_SOF_B64 w
  = {| rx_mode := RX_EIML; rx_buf := EIML_SOF_B64; img := img w;
       idx := idx w; gui := gui w; log := log w |}
  /\ feed Image_open JPEG_SOF_B64 w
     = {| rx_mode := RX_JPEG; rx_buf := JPEG_SOF_B64; img := img w;
          idx := idx w; gui := gui w; log := log w |}.
Proof.
  destruct w as [m buf im i g lg]. cbn [rx_mode rx_buf img idx gui log].
  intros -> ->. split; cbn [feed EIML_SOF_B64 JPEG_SOF_B64 b list_ascii_of_string];
    rewrite !on_byte_other by (vm_compute; discriminate); reflexivity.
Qed.

(** A whole image line up to its line feed is collected in the buffer. *)
Lemma feed_image_line w rest :
  rx_mode w = RX_STRING -> rx_buf w = [] ->
  Forall (fun c => N_of_ascii c <> 10%N) rest ->
  feed Image_open (EIML_SOF_B64 ++ rest) w
  = {| rx_mode := RX_EIML; rx_buf := EIML_SOF_B64 ++ rest; img := img w;
       idx := idx w; gui := gui w; log := log w |}
  /\ feed Image_open (JPEG_SOF_B64 ++ rest) w
     = {| rx_mode := RX_JPEG; rx_buf := JPEG_SOF_B64 ++ rest; img := img w;
          idx := idx w; gui := gui w; log := log w |}.
Proof.
  intros Hm Hb Hr. destruct (feed_marker w Hm Hb) as [HE HJ].
  split; rewrite feed_app; [rewrite HE | rewrite HJ];
    (rewrite feed_collect; [reflexivity | discriminate | exact Hr]).
Qed.

(** A compressed image that decodes is handed to the GUI. *)
Lemma jpeg_line_ok w d im :
  rx_mode w = RX_JPEG ->
  b64decode (payload_of w) = Ok d ->
  Image_open d = Ok im ->
  on_byte Image_open LF w =
  ({| rx_mode := RX_STRING; rx_buf := []; img := Some im; idx := idx w;
      gui := fst (update_image im (gui w));
      log := log w ++ [Frame RX_JPEG (payload_of w); Published im] |}, Ok tt).
Proof.
  unfold payload_of.
  destruct w as [mo buf im0 i g lg]. cbn [rx_mode rx_buf img idx gui log].
  intros -> Hdec Hopen.
  run_stmt. rewrite index_last_snoc. cbv beta iota. rewrite LF_is_10.
  cbv beta iota. rewrite Hdec. cbv beta iota. rewrite Hopen. cbv beta iota.
  destruct (update_image im g) as [g0 [u|e]]; cbn [fst];
    rewrite <- app_assoc; reflexivity.
Qed.

End Lines.

(** X1: a text line.  From an empty buffer in mode [RX_STRING], a line
    without line feed inside whose first four bytes are neither [/9j/] nor
    [/6D/], ended by a line feed, is printed when it decodes as UTF-8 and
    dropped in silence when it does not; nothing else happens: no frame,
    nothing for the GUI, buffer empty again.  A marker further inside the
    line is not recognised. *)
Theorem X1_text_line
    (Image_open : bytes -> result Image) (w : world) (text : bytes) :
  rx_mode w = RX_STRING -> rx_buf w = [] ->
  Forall (fun c => N_of_ascii c <> 10%N) text ->
  firstn 4 text <> JPEG_SOF_B64 -> firstn 4 text <> EIML_SOF_B64 ->
  feed Image_open (text ++ [LF]) w
  = {| rx_mode := RX_STRING; rx_buf := []; img := img w; idx := idx w;
       gui := gui w;
       log := log w ++ (if decodes_utf8 (text ++ [LF])
                        then [Recv (text ++ [LF])] else []) |}.
Proof.
  intros Hm Hb Hno HJ HE.
  rewrite feed_app, (feed_text Image_open text w Hm Hno).
  - cbn [feed]. rewrite on_byte_LF_string by (destruct w; exact Hm).
    destruct w as [m buf im i g lg]. unfold with_buf.
    cbn [rx_mode rx_buf img idx gui log fst set_rx_buf modify] in *.
    subst buf. reflexivity.
  - intros k. rewrite Hb. cbn [app].
    split; apply prefix_not_marker; auto.
Qed.

(** A line that is valid UTF-8 and one that is not. *)
Lemma X1_witness :
  feed no_jpeg (b "boot /6D/ ok" ++ [LF]) world_init
  = {| rx_mode := RX_STRING; rx_buf := []; img := None; idx := None;
       gui := GUI_init; log := [Recv (b "boot /6D/ ok" ++ [LF])] |}
  /\ feed no_jpeg ([byte 255; byte 254] ++ [LF]) world_init
     = {| rx_mode := RX_STRING; rx_buf := []; img := None; idx := None;
          gui := GUI_init; log := [] |}.
Proof.
  split.
  - apply (X1_text_line no_jpeg world_init (b "boot /6D/ ok")).
    + reflexivity.
    + reflexivity.
    + repeat constructor; vm_compute; discriminate.
    + vm_compute. discriminate.
    + vm_compute. discriminate.
  - apply (X1_text_line no_jpeg world_init [byte 255; byte 254]).
    + reflexivity.
    + reflexivity.
    + repeat constructor; vm_compute; discriminate.
    + vm_compute. discriminate.
    + vm_compute. discriminate.
Defined.

(** X2: a compressed image.  From an empty buffer in mode [RX_STRING],
    the base64 text of data that starts with FF D8 FF, followed by
    carriage return and line feed, is collected in mode [RX_JPEG]; when
    [Image.open] accepts the data its image is handed to the GUI, [img]
    holds it, [idx] is untouched and the buffer is empty again. *)
Theorem X2_jpeg_line_published
    (Image_open : bytes -> result Image) (w : world) (data : bytes)
    (im : Image) :
  rx_mode w = RX_STRING -> rx_buf w = [] ->
  firstn 3 data = JPEG_SOI ->
  Image_open data = Ok im ->
  feed Image_open (b64encode data ++ [CR; LF]) w
  = {| rx_mode := RX_STRING; rx_buf := []; img := Some im; idx := idx w;
       gui := fst (update_image im (gui w));
       log := log w ++ [Frame RX_JPEG (b64encode data); Published im] |}.
Proof.
  intros Hm Hb Hsoi Hopen.
  assert (Htext : exists rest, b64encode data = JPEG_SOF_B64 ++ rest).
  { destruct data as [|x [|y [|z r]]]; try discriminate.
    injection Hsoi as -> -> ->. eexists. reflexivity. }
  destruct Htext as [rest Htext].
  assert (Hno : Forall (fun c => N_of_ascii c <> 10%N) (rest ++ [CR])).
  { pose proof (b64encode_no_LF data) as H. rewrite Htext in H.
    apply Forall_app in H. destruct H as [_ H].
    apply Forall_app. split; [exact H|]. repeat constructor. apply not_LF_SOF. }
  change [CR; LF] with ([CR] ++ [LF]). rewrite app_assoc, feed_app.
  rewrite Htext, <- app_assoc.
  rewrite (proj2 (feed_image_line Image_open w (rest ++ [CR]) Hm Hb Hno)).
  cbn [feed].
  set (w1 := {| rx_mode := RX_JPEG; rx_buf := JPEG_SOF_B64 ++ rest ++ [CR];
                img := img w; idx := idx w; gui := gui w; log := log w |}).
  assert (Hpay : payload_of w1 = b64encode data).
  { unfold payload_of, w1. cbn [rx_buf]. rewrite Htext, !app_assoc.
    rewrite <- (app_assoc _ [CR] [LF]). apply slice_to_neg_snoc2. }
  rewrite (jpeg_line_ok Image_open w1 data im); [| reflexivity | | exact Hopen].
  - rewrite Hpay, Htext. reflexivity.
  - rewrite Hpay. apply b64decode_b64encode.
Qed.

Lemma X2_witness :
  let data := JPEG_SOI ++ b "JFIF" in
  feed soi_jpeg (b64encode data ++ [CR; LF]) world_init
  = {| rx_mode := RX_STRING; rx_buf := []; img := Some frame_A; idx := None;
       gui := fst (update_image frame_A GUI_init);
       log := [Frame RX_JPEG (b64encode data); Published frame_A] |}.
Proof.
  intros data.
  apply (X2_jpeg_line_published soi_jpeg world_init data frame_A);
    reflexivity.
Defined.

(** X3: a compressed-image line that does not decode (bad base64, or data
    [Image.open] refuses) is dropped: nothing is handed to the GUI, [img]
    keeps its value, the step ends normally, the buffer is cleared and the
    mode is [RX_STRING]. *)
Theorem X3_jpeg_line_rejected
    (Image_open : bytes -> result Image) (w : world) :
  rx_mode w = RX_JPEG ->
  (forall d, b64decode (payload_of w) = Ok d -> is_ok (Image_open d) = false) ->
  on_byte Image_open LF w =
  ({| rx_mode := RX_STRING; rx_buf := []; img := img w; idx := idx w;
      gui := gui w; log := log w ++ [Frame RX_JPEG (payload_of w)] |}, Ok tt).
Proof.
  unfold payload_of.
  destruct w as [mo buf im0 i g lg]. cbn [rx_mode rx_buf img idx gui log].
  intros -> Hbad.
  run_stmt. rewrite index_last_snoc. cbv beta iota. rewrite LF_is_10.
  cbv beta iota.
  destruct (b64decode (slice_to_neg (buf ++ [LF]) 2)) as [d|e]; [|reflexivity].
  specialize (Hbad d eq_refl). cbv beta iota.
  destruct (Image_open d) as [im|e]; [discriminate | reflexivity].
Qed.

Lemma X3_witness :
  let w := world_after (b "/9j/AAAA" ++ [CR]) in
  on_byte no_jpeg LF w =
  ({| rx_mode := RX_STRING; rx_buf := []; img := None; idx := None;
      gui := GUI_init; log := [Frame RX_JPEG (b "/9j/AAAA")] |}, Ok tt).
Proof.
  intros w. apply (X3_jpeg_line_rejected no_jpeg w).
  - reflexivity.
  - intros d _. reflexivity.
Defined.

(** X4: an EIML line whose base64 text does not decode, while [idx] was
    never assigned.  [print(idx)] in the handler raises
    [UnboundLocalError], which leaves the inner loop before the buffer is
    cleared: the mode is [RX_STRING] but the buffer still holds the
    payload, so the bytes of the next line are appended to it. *)
Theorem X4_undecodable_line_keeps_buffer
    (Image_open : bytes -> result Image) (w : world) :
  rx_mode w = RX_EIML ->
  idx w = None ->
  is_ok (b64decode (payload_of w)) = false ->
  on_byte Image_open LF w =
  ({| rx_mode := RX_STRING; rx_buf := payload_of w; img := img w;
      idx := None; gui := gui w;
      log := log w ++ [Frame RX_EIML (payload_of w)] |},
   Raise UnboundLocalError).
Proof.
  unfold payload_of.
  destruct w as [mo buf im0 i g lg]. cbn [rx_mode rx_buf img idx gui log].
  intros -> -> Hbad.
  run_stmt. rewrite index_last_snoc. cbv beta iota. rewrite LF_is_10.
  cbv beta iota.
  destruct (b64decode (slice_to_neg (buf ++ [LF]) 2)) as [d|e];
    [discriminate | reflexivity].
Qed.

Lemma X4_witness :
  let w := world_after (b "/6D/AgEAA" ++ [CR]) in
  on_byte no_jpeg LF w =
  ({| rx_mode := RX_STRING; rx_buf := b "/6D/AgEAA"; img := None;
      idx := None; gui := GUI_init;
      log := [Frame RX_EIML (b "/6D/AgEAA")] |},
   Raise UnboundLocalError).
Proof.
  intros w. apply (X4_undecodable_line_keeps_buffer no_jpeg w); reflexivity.
Defined.

Section NoEscape.

Variable Image_open : bytes -> result Image.

(** With [idx] assigned a step never raises, and [idx] stays assigned. *)
Lemma on_byte_idx_bound c w :
  idx w <> None ->
  snd (on_byte Image_open c w) = Ok tt
  /\ idx (fst (on_byte Image_open c w)) <> None.
Proof.
  intros Hi. destruct (N.eq_dec (N_of_ascii c) 10) as [Hc|Hc].
  - apply LF_from_code in Hc. subst c.
    destruct w as [m buf im [i|] g lg]; [|cbn in Hi; congruence]. clear Hi.
    destruct m.
    + rewrite on_byte_LF_string by reflexivity. split; [reflexivity | discriminate].
    + on_LF; split_outcomes; split; (reflexivity || discriminate).
    + on_LF; split_outcomes; split; (reflexivity || discriminate).
  - rewrite (on_byte_other Image_open c w Hc). split; [reflexivity | exact Hi].
Qed.

End NoEscape.

(** X5: once [idx] has been assigned (an EIML line got past base64
    decoding at least once), no exception leaves the inner loop any more:
    one turn of the loop takes every byte that is waiting, and [idx] stays
    assigned. *)
Theorem X5_no_escape_once_idx_bound
    (Image_open : bytes -> result Image) (q : bytes) (w : world) :
  idx w <> None ->
  read_loop Image_open q w = ([], feed Image_open q w, Ok tt)
  /\ idx (feed Image_open q w) <> None.
Proof.
  revert w. induction q as [|c q IH]; intros w Hi.
  - split; [reflexivity | exact Hi].
  - destruct (on_byte_idx_bound Image_open c w Hi) as [Hok Hi'].
    cbn [read_loop feed].
    destruct (on_byte Image_open c w) as [w1 r]. cbn [fst snd] in *. subst r.
    apply IH, Hi'.
Qed.

Lemma X5_witness :
  let q := b "/6D/AgEAA" ++ [CR; LF] ++ b "hello" ++ [LF] in
  read_loop no_jpeg q world_parsed = ([], feed no_jpeg q world_parsed, Ok tt)
  /\ idx (feed no_jpeg q world_parsed) <> None.
Proof.
  intros q. apply (X5_no_escape_once_idx_bound no_jpeg q world_parsed).
  vm_compute. discriminate.
Defined.

(** X6: an EIML line whose decoded message is too short to hold a format
    byte (three bytes or fewer, as for the bare marker [/6D/]) is dropped:
    [msg_dec[3]] raises [IndexError] with [idx] already 3, nothing is
    handed to the GUI and the buffer is cleared. *)
Theorem X6_no_format_byte
    (Image_open : bytes -> result Image) (w : world) (msg : bytes) :
  rx_mode w = RX_EIML ->
  b64decode (payload_of w) = Ok msg ->
  length msg <= 3 ->
  on_byte Image_open LF w =
  ({| rx_mode := RX_STRING; rx_buf := []; img := img w; idx := Some 3;
      gui := gui w; log := log w ++ [Frame RX_EIML (payload_of w)] |}, Ok tt).
Proof.
  unfold payload_of.
  destruct w as [mo buf im0 i g lg]. cbn [rx_mode rx_buf img idx gui log].
  intros -> Hdec Hlen.
  assert (Hidx : index msg 3 = Raise IndexError).
  { unfold index. destruct (nth_error msg 3) eqn:E; [|reflexivity].
    assert (3 < length msg) by (apply nth_error_Some; congruence). lia. }
  run_stmt. rewrite index_last_snoc. cbv beta iota. rewrite LF_is_10.
  cbv beta iota. rewrite Hdec. cbv beta iota. rewrite Hidx. reflexivity.
Qed.

Lemma X6_witness :
  let w := world_after (b "/6D/" ++ [CR]) in
  on_byte no_jpeg LF w =
  ({| rx_mode := RX_STRING; rx_buf := []; img := None; idx := Some 3;
      gui := GUI_init; log := [Frame RX_EIML (b "/6D/")] |}, Ok tt).
Proof.
  intros w. apply (X6_no_format_byte no_jpeg w EIML_SOF).
  - reflexivity.
  - reflexivity.
  - cbn. lia.
Defined.

(** X7: an EIML line whose format byte is neither 1 nor 2 assigns nothing
    to [img] and still calls [update_image(img)]: when [img] is unbound
    the line is dropped, when an earlier line (EIML or JPEG) left an image
    in [img] that image is handed to the GUI again.  Either way the step
    ends normally with the buffer cleared. *)
Theorem X7_other_format
    (Image_open : bytes -> result Image) (w : world) (msg : bytes) (fmt : N) :
  rx_mode w = RX_EIML ->
  b64decode (payload_of w) = Ok msg ->
  index msg 3 = Ok fmt ->
  fmt <> EIML_RGB888 -> fmt <> EIML_GRAYSCALE ->
  on_byte Image_open LF w =
  ({| rx_mode := RX_STRING; rx_buf := []; img := img w; idx := Some 12;
      gui := match img w with
             | Some old => fst (update_image old (gui w))
             | None => gui w
             end;
      log := log w ++ Frame RX_EIML (payload_of w)
                      :: match img w with
                         | Some old => [Published old]
                         | None => []
                         end |}, Ok tt).
Proof.
  intros Hm Hdec Hfmt H2 H1. destruct (img w) as [old|] eqn:Ei.
  - exact (eiml_other_format Image_open w msg fmt old Hm Hdec Hfmt H2 H1 Ei).
  - exact (eiml_other_format_unbound Image_open w msg fmt Hm Hdec Hfmt H2 H1 Ei).
Qed.

Lemma X7_witness :
  let msg := eiml_msg 3 1 1 [7; 8; 9]%N in
  let w := feed no_jpeg (b64encode msg ++ [CR]) world_parsed in
  on_byte no_jpeg LF w =
  ({| rx_mode := RX_STRING; rx_buf := []; img := img w; idx := Some 12;
      gui := match img w with
             | Some old => fst (update_image old (gui w))
             | None => gui w
             end;
      log := log w ++ Frame RX_EIML (payload_of w)
                      :: match img w with
                         | Some old => [Published old]
                         | None => []
                         end |}, Ok tt).
Proof.
  intros msg w. apply (X7_other_format no_jpeg w msg 3).
  - reflexivity.
  - vm_compute. reflexivity.
  - reflexivity.
  - discriminate.
  - discriminate.
Defined.

Section Header.

Variable Image_open : bytes -> result Image.

(** The fields of a message laid out as start marker, format byte, width
    and height on four bytes each, pixel data. *)
Lemma header_fields (f : ascii) (W H pix : bytes) :
  length W = 4 -> length H = 4 ->
  let msg := EIML_SOF ++ [f] ++ W ++ H ++ pix in
  index msg 3 = Ok (N_of_ascii f)
  /\ header_width msg = int_from_bytes_little W
  /\ header_height msg = int_from_bytes_little H
  /\ pixel_bytes msg = pix
  /\ exists rest, b64encode msg = EIML_SOF_B64 ++ rest.
Proof.
  intros HW HH.
  destruct W as [|w0 [|w1 [|w2 [|w3 [|]]]]]; try discriminate.
  destruct H as [|h0 [|h1 [|h2 [|h3 [|]]]]]; try discriminate.
  repeat split. eexists. reflexivity.
Qed.

(** A little-endian number of n bytes is below 256^n. *)
Lemma int_from_bytes_little_bound (s : bytes) :
  (int_from_bytes_little s < 256 ^ N.of_nat (length s))%N.
Proof.
  induction s as [|c s IH].
  - cbn. lia.
  - cbn [int_from_bytes_little length]. rewrite Nat2N.inj_succ, N.pow_succ_r'.
    pose proof (N_ascii_bounded c). lia.
Qed.

(** The line of a message that starts with the marker is collected whole
    in mode [RX_EIML]. *)
Lemma eiml_line_collected w msg rest :
  rx_mode w = RX_STRING -> rx_buf w = [] ->
  b64encode msg = EIML_SOF_B64 ++ rest ->
  feed Image_open (b64encode msg ++ [CR]) w
  = {| rx_mode := RX_EIML; rx_buf := b64encode msg ++ [CR]; img := img w;
       idx := idx w; gui := gui w; log := log w |}.
Proof.
  intros Hm Hb Htext.
  assert (Hno : Forall (fun c => N_of_ascii c <> 10%N) (rest ++ [CR])).
  { pose proof (b64encode_no_LF msg) as H. rewrite Htext in H.
    apply Forall_app in H. destruct H as [_ H].
    apply Forall_app. split; [exact H|]. repeat constructor. apply not_LF_SOF. }
  rewrite Htext, <- app_assoc.
  exact (proj1 (feed_image_line Image_open w (rest ++ [CR]) Hm Hb Hno)).
Qed.

Lemma payload_of_line (m : rx_mode_t) text o1 o2 g lg :
  payload_of {| rx_mode := m; rx_buf := text ++ [CR]; img := o1; idx := o2;
                gui := g; log := lg |} = text.
Proof.
  unfold payload_of. cbn [rx_buf]. rewrite <- app_assoc.
  apply slice_to_neg_snoc2.
Qed.

End Header.

(** X8: an RGB888 line from start to end.  From an empty buffer in mode
    [RX_STRING], the base64 text of start marker, format 2, width and
    height (four bytes each, little-endian) and exactly
    width * height * 3 bytes of pixel data, followed by carriage return
    and line feed, hands one image of that size with those pixels to the
    GUI.  Both sides are positive and the image is small enough for
    Pillow's storage of four bytes per pixel to stay below 2^31 bytes. *)
Theorem X8_rgb_line
    (Image_open : bytes -> result Image) (w : world) (W H pix : bytes) :
  rx_mode w = RX_STRING -> rx_buf w = [] ->
  length W = 4 -> length H = 4 ->
  let msg := EIML_SOF ++ [byte 2] ++ W ++ H ++ pix in
  let width := int_from_bytes_little W in
  let height := int_from_bytes_little H in
  (0 < width)%N -> (0 < height)%N -> (width * height * 4 < 2 ^ 31)%N ->
  (width * height * 3 = N.of_nat (length pix))%N ->
  let im := {| im_mode := RGB; im_width := width; im_height := height;
               im_data := pix |} in
  feed Image_open (b64encode msg ++ [CR; LF]) w
  = {| rx_mode := RX_STRING; rx_buf := []; img := Some im; idx := Some 12;
       gui := fst (update_image im (gui w));
       log := log w ++ [Frame RX_EIML (b64encode msg); Published im] |}.
Proof.
  intros Hm Hb HW HH msg width height Hw0 Hh0 Hsmall Hlen im.
  destruct (header_fields (byte 2) W H pix HW HH)
    as (Hfmt & Hwd & Hht & Hpix & rest & Htext).
  fold msg in Hfmt, Hwd, Hht, Hpix, Htext.
  change [CR; LF] with ([CR] ++ [LF]). rewrite app_assoc, feed_app.
  rewrite (eiml_line_collected Image_open w msg rest Hm Hb Htext).
  cbn [feed].
  rewrite (eiml_rgb Image_open _ msg); rewrite ?payload_of_line.
  - rewrite Hwd, Hht, Hpix. fold width height. rewrite Hlen, Nat2N.id.
    rewrite firstn_all. reflexivity.
  - reflexivity.
  - apply b64decode_b64encode.
  - exact Hfmt.
  - rewrite Hwd, Hht, Hpix. fold width height. rewrite Hlen. apply N.le_refl.
Qed.

(** A 2 x 1 image. *)
Lemma X8_witness :
  let W := map byte [2; 0; 0; 0]%N in
  let H := map byte [1; 0; 0; 0]%N in
  let pix := map byte [1; 2; 3; 4; 5; 6]%N in
  let msg := EIML_SOF ++ [byte 2] ++ W ++ H ++ pix in
  let im := {| im_mode := RGB; im_width := 2; im_height := 1;
               im_data := pix |} in
  feed no_jpeg (b64encode msg ++ [CR; LF]) world_init
  = {| rx_mode := RX_STRING; rx_buf := []; img := Some im; idx := Some 12;
       gui := fst (update_image im GUI_init);
       log := [Frame RX_EIML (b64encode msg); Published im] |}.
Proof.
  intros W H pix msg im.
  apply (X8_rgb_line no_jpeg world_init W H pix).
  - reflexivity.
  - reflexivity.
  - reflexivity.
  - reflexivity.
  - reflexivity.
  - reflexivity.
  - reflexivity.
  - reflexivity.
Defined.

(** * The receive loop and the display *)

Section Effects.

Variable Image_open : bytes -> result Image.

(** What a step does to the log and to the GUI object: it hands nothing
    to the GUI and leaves the object alone, or it ends by handing one
    image to [update_image]. *)
Lemma on_byte_effect c w :
  exists evs,
    log (fst (on_byte Image_open c w)) = log w ++ evs
    /\ ((count_published evs = 0
         /\ gui (fst (on_byte Image_open c w)) = gui w)
        \/ (exists pre im,
              evs = pre ++ [Published im]
              /\ count_published pre = 0
              /\ gui (fst (on_byte Image_open c w))
                 = fst (update_image im (gui w)))).
Proof.
  destruct (N.eq_dec (N_of_ascii c) 10) as [Hc|Hc].
  - apply LF_from_code in Hc. subst c.
    destruct w as [m buf im i g lg]. destruct m.
    + rewrite on_byte_LF_string by reflexivity. cbn [fst log gui rx_buf].
      destruct (decodes_utf8 (buf ++ [LF]));
        eexists; (split; [reflexivity | left; split; reflexivity]).
    + on_LF; split_outcomes_eq; cbn [fst log gui];
        first [ exists [Frame RX_JPEG (slice_to_neg (buf ++ [LF]) 2)];
                split; [reflexivity | left; split; reflexivity]
              | eexists [_; _]; split;
                [rewrite <- app_assoc; reflexivity
                | right; eexists [_], _; repeat split;
                  match goal with
                  | E : update_image _ _ = _ |- _ => now rewrite E
                  end] ].
    + on_LF; split_outcomes_eq; cbn [fst log gui];
        first [ exists [Frame RX_EIML (slice_to_neg (buf ++ [LF]) 2)];
                split; [reflexivity | left; split; reflexivity]
              | eexists [_; _]; split;
                [rewrite <- app_assoc; reflexivity
                | right; eexists [_], _; repeat split;
                  match goal with
                  | E : update_image _ _ = _ |- _ => now rewrite E
                  end] ].
  - rewrite (on_byte_other Image_open c w Hc). cbn [fst log gui].
    exists []. split; [now rewrite app_nil_r | left; split; reflexivity].
Qed.

(** A step reads the GUI object only to hand it an image: its effect on
    the variables of the loop and on the log does not depend on it. *)
Lemma on_byte_with_gui c w g :
  rx_part (fst (on_byte Image_open c (with_gui w g)))
  = rx_part (fst (on_byte Image_open c w))
  /\ snd (on_byte Image_open c (with_gui w g)) = snd (on_byte Image_open c w).
Proof.
  destruct (N.eq_dec (N_of_ascii c) 10) as [Hc|Hc].
  - apply LF_from_code in Hc. subst c.
    destruct w as [m buf im i g0 lg]. unfold with_gui, rx_part.
    cbn [rx_mode rx_buf img idx log]. destruct m.
    + rewrite !on_byte_LF_string by reflexivity. split; reflexivity.
    + on_LF; split_outcomes; split; reflexivity.
    + on_LF; split_outcomes; split; reflexivity.
  - rewrite !(on_byte_other Image_open c _ Hc). split; reflexivity.
Qed.

Lemma rx_part_eq w1 w2 :
  rx_part w1 = rx_part w2 -> w1 = with_gui w2 (gui w1).
Proof.
  destruct w1, w2. unfold rx_part, with_gui. cbn.
  intros [= -> -> -> -> ->]. reflexivity.
Qed.

Lemma feed_with_gui s : forall w g,
  rx_part (feed Image_open s (with_gui w g)) = rx_part (feed Image_open s w).
Proof.
  induction s as [|c s IH]; intros w g.
  - reflexivity.
  - cbn [feed]. destruct (on_byte_with_gui c w g) as [H _].
    rewrite (rx_part_eq _ _ H). apply IH.
Qed.

End Effects.

(** X9: the display cannot disturb the receive loop.  However the ticks
    of the display fall between the bytes, the mode, the buffer, the
    local variables and the log of frames and published images are those
    of the loop running alone on the same bytes. *)
Theorem X9_display_does_not_disturb
    (Image_open : bytes -> result Image)
    (Image_resize : Image -> N -> N -> result Image)
    (PhotoImage : Image -> result unit)
    (acts : list action) (w : world) :
  rx_part (fst (interleave Image_open Image_resize PhotoImage acts w))
  = rx_part (feed Image_open (bytes_of acts) w).
Proof.
  revert w. induction acts as [|[c|var_big] r IH]; intros w.
  - reflexivity.
  - cbn [interleave bytes_of feed]. apply IH.
  - cbn [interleave bytes_of].
    destruct (refresh_image Image_resize PhotoImage var_big (gui w))
      as [g shown].
    specialize (IH (with_gui w g)).
    destruct (interleave Image_open Image_resize PhotoImage r (with_gui w g))
      as [w' l].
    cbn [fst] in *. rewrite IH. apply feed_with_gui.
Qed.

Section Counting.

Variable Image_open : bytes -> result Image.
Variable Image_resize : Image -> N -> N -> result Image.
Variable PhotoImage : Image -> result unit.

Lemma count_published_app l1 l2 :
  count_published (l1 ++ l2) = count_published l1 + count_published l2.
Proof. unfold count_published. now rewrite filter_app, length_app. Qed.

Lemma count_frames_app l1 l2 :
  count_frames (l1 ++ l2) = count_frames l1 + count_frames l2.
Proof. unfold count_frames. now rewrite filter_app, length_app. Qed.

Lemma last_pub_app l1 l2 d :
  last_pub (l1 ++ l2) d = last_pub l2 (last_pub l1 d).
Proof.
  revert d. induction l1 as [|[ | |im] l1 IH]; intros d; cbn; auto.
Qed.

Lemma last_pub_none l d : count_published l = 0 -> last_pub l d = d.
Proof.
  revert d. induction l as [|[ | |im] l IH]; intros d H; cbn in *;
    auto; discriminate.
Qed.

Lemma count_of_published pubs :
  Forall is_published pubs ->
  count_published pubs = length pubs /\ count_frames pubs = 0.
Proof.
  induction 1 as [|e l He Hl [IH1 IH2]]; [split; reflexivity|].
  destruct e; try destruct He. unfold count_published, count_frames in *.
  cbn. split; [now rewrite IH1 | exact IH2].
Qed.

(** The lock is free after [update_image], whatever it was before. *)
Lemma update_image_free im g : img_mutex (fst (update_image im g)) = false.
Proof. destruct g as [o [|]]; reflexivity. Qed.


Lemma img_is_last_on_byte c w :
  img_is_last w -> img_is_last (fst (on_byte Image_open c w)).
Proof.
  unfold img_is_last. intros H.
  destruct (on_byte_effect Image_open c w)
    as (evs & Hlog & [[H0 Hg]|(pre & im & -> & H0 & Hg)]);
    rewrite Hlog, Hg, last_pub_app.
  - now rewrite last_pub_none.
  - rewrite last_pub_app. cbn. apply update_image_img.
Qed.

Lemma img_is_last_interleave acts : forall w,
  img_is_last w ->
  img_is_last (fst (interleave Image_open Image_resize PhotoImage acts w)).
Proof.
  induction acts as [|[c|var_big] r IH]; intros w H.
  - exact H.
  - cbn [interleave]. apply IH, img_is_last_on_byte, H.
  - cbn [interleave].
    pose proof (refresh_image_state Image_resize PhotoImage var_big (gui w)) as E.
    destruct (refresh_image Image_resize PhotoImage var_big (gui w)) as [g o].
    cbn [fst] in E. subst g.
    specialize (IH (with_gui w {| gui_img := gui_img (gui w); img_mutex := true |})).
    destruct (interleave Image_open Image_resize PhotoImage r _) as [w' l].
    cbn [fst] in *. apply IH. exact H.
Qed.

(** The statements of the hand-off in any order: the ticks that drew an
    image, plus one while an image waits, are no more than the releases
    so far. *)
Lemma drawn_at_most_released steps : forall g,
  count_drawn (snd (run_gui_steps Image_resize PhotoImage steps g))
  <= count_releases steps + pending g.
Proof.
  induction steps as [|[im| |var_big] r IH]; intros g.
  - cbn. lia.
  - cbn [run_gui_steps]. specialize (IH (assign_img im g)).
    unfold count_releases in *. cbn [filter]. unfold pending in *.
    cbn [assign_img img_mutex] in IH. exact IH.
  - cbn [run_gui_steps]. specialize (IH (fst (release_mutex g))).
    unfold count_releases in *. cbn [filter length].
    assert (pending (fst (release_mutex g)) <= 1)
      by (unfold pending; destruct (img_mutex (fst (release_mutex g))); lia).
    lia.
  - cbn [run_gui_steps].
    pose proof (refresh_image_state Image_resize PhotoImage var_big g) as E.
    assert (Ho : snd (refresh_image Image_resize PhotoImage var_big g) <> None
                 -> img_mutex g = false).
    { destruct g as [o [|]]; cbn; [congruence | reflexivity]. }
    destruct (refresh_image Image_resize PhotoImage var_big g) as [g1 o].
    cbn [fst snd] in E, Ho. subst g1.
    specialize (IH {| gui_img := gui_img g; img_mutex := true |}).
    destruct (run_gui_steps Image_resize PhotoImage r _) as [g2 os].
    cbn [snd] in *. unfold count_releases in *. cbn [filter].
    unfold pending in *. cbn [img_mutex] in IH.
    unfold count_drawn in *. cbn [filter].
    destruct o as [im|]; cbn [length].
    + rewrite Ho by discriminate. lia.
    + destruct (img_mutex g); lia.
Qed.

End Counting.

(** The same image can be drawn twice: B is assigned while A waits, a
    tick falls before B's release and another after it. *)
Example same_image_drawn_twice :
  snd (run_gui_steps resize_nonempty photo_any
         [Assign frame_A; Release; Assign frame_B; Show false; Release;
          Show false] GUI_init)
  = [Some frame_B; Some frame_B].
Proof. reflexivity. Qed.

(** X10: what the display shows.  After any schedule of bytes and ticks
    from the start of the loop, [self.img] is the image handed to
    [update_image] last, and a tick shows that image or nothing; it never
    shows an older image. *)
Theorem X10_tick_shows_latest
    (Image_open : bytes -> result Image)
    (Image_resize : Image -> N -> N -> result Image)
    (PhotoImage : Image -> result unit)
    (acts : list action) (var_big : bool) :
  let w := fst (interleave Image_open Image_resize PhotoImage acts world_init) in
  gui_img (gui w) = last_pub (log w) None
  /\ (snd (refresh_image Image_resize PhotoImage var_big (gui w)) = None
      \/ snd (refresh_image Image_resize PhotoImage var_big (gui w))
         = last_pub (log w) None).
Proof.
  intros w.
  assert (H : img_is_last w)
    by (apply img_is_last_interleave; reflexivity).
  split; [exact H|].
  destruct (refresh_image_shows Image_resize PhotoImage var_big (gui w))
    as [Hs|Hs]; [left; exact Hs|].
  right. rewrite Hs. exact H.
Qed.

(** X11: the display draws no more often than the receive thread
    releases.  [update_image] is two statements, the assignment of
    [self.img] and the release of the lock; however these statements of
    successive calls and the ticks of the display follow one another
    (a tick may fall between an assignment and its release), from the
    state [__init__] leaves the ticks that drew an image are no more than
    the [release()] calls, hence no more than the calls of
    [update_image]. *)
Theorem X11_drawn_at_most_released
    (Image_resize : Image -> N -> N -> result Image)
    (PhotoImage : Image -> result unit)
    (steps : list gui_step) :
  count_drawn (snd (run_gui_steps Image_resize PhotoImage steps GUI_init))
  <= count_releases steps.
Proof.
  pose proof (drawn_at_most_released Image_resize PhotoImage steps GUI_init) as H.
  unfold pending in H. cbn [GUI_init img_mutex] in H. lia.
Qed.

(** X12: frames and line feeds.  Taking a stream adds to the log at most
    one frame per line feed of the stream, and at most one published
    image per frame. *)
Theorem X12_one_frame_per_line
    (Image_open : bytes -> result Image) (s : bytes) (w : world) :
  count_published (log (feed Image_open s w)) + count_frames (log w)
  <= count_frames (log (feed Image_open s w)) + count_published (log w)
  /\ count_frames (log (feed Image_open s w))
     <= count_frames (log w) + count_LF s.
Proof.
  revert w. induction s as [|c s IH]; intros w.
  - cbn. lia.
  - cbn [feed]. specialize (IH (fst (on_byte Image_open c w))).
    assert (Hstep :
      count_published (log (fst (on_byte Image_open c w))) + count_frames (log w)
      <= count_frames (log (fst (on_byte Image_open c w))) + count_published (log w)
      /\ count_frames (log (fst (on_byte Image_open c w)))
         <= count_frames (log w) + count_LF [c]).
    { destruct (N.eq_dec (N_of_ascii c) 10) as [Hc|Hc].
      - assert (HL : count_LF [c] = 1)
          by (unfold count_LF; cbn; rewrite Hc; reflexivity).
        apply LF_from_code in Hc. subst c. rewrite HL.
        destruct (rx_mode w) eqn:Em.
        + rewrite (on_byte_LF_string Image_open w Em). cbn [fst log].
          rewrite count_published_app, count_frames_app.
          destruct (decodes_utf8 (rx_buf w ++ [LF])); cbn; lia.
        + destruct (on_byte_LF_image Image_open w) as (pubs & _ & Hl & Hp & Hn);
            [congruence|].
          destruct (count_of_published pubs Hp) as [Hc1 Hc2].
          rewrite Hl, count_published_app, count_frames_app.
          change (Frame (rx_mode w) (payload_of w) :: pubs)
            with ([Frame (rx_mode w) (payload_of w)] ++ pubs).
          rewrite count_published_app, count_frames_app, Hc1, Hc2. cbn. lia.
        + destruct (on_byte_LF_image Image_open w) as (pubs & _ & Hl & Hp & Hn);
            [congruence|].
          destruct (count_of_published pubs Hp) as [Hc1 Hc2].
          rewrite Hl, count_published_app, count_frames_app.
          change (Frame (rx_mode w) (payload_of w) :: pubs)
            with ([Frame (rx_mode w) (payload_of w)] ++ pubs).
          rewrite count_published_app, count_frames_app, Hc1, Hc2. cbn. lia.
      - rewrite (on_byte_other Image_open c w Hc). cbn [fst log]. lia. }
    assert (HLF : count_LF (c :: s) = count_LF [c] + count_LF s).
    { change (c :: s) with ([c] ++ s). unfold count_LF.
      now rewrite filter_app, length_app. }
    lia.
Qed.

(** * The life of the port *)

Section PortInvariant.

Variable os_open : string -> Z -> bool.

Lemma held_after_app t1 t2 h :
  held_after os_open (t1 ++ t2) h
  = held_after os_open t2 (held_after os_open t1 h).
Proof.
  revert h. induction t1 as [|[n b|] t1 IH]; intros h; cbn; auto.
Qed.

Lemma orderly_app t1 t2 h :
  orderly os_open (t1 ++ t2) h
  = orderly os_open t1 h && orderly os_open t2 (held_after os_open t1 h).
Proof.
  revert h. induction t1 as [|[n b|] t1 IH]; intros h; cbn.
  - reflexivity.
  - rewrite IH. now rewrite andb_assoc.
  - rewrite IH. now rewrite andb_assoc.
Qed.


Lemma port_inv_connect name baud s :
  port_inv os_open s -> port_inv os_open (fst (Port.connect os_open name baud s)).
Proof.
  intros [Ho Hh]. rewrite connect_spec. unfold port_inv.
  destruct (baud <? 0)%Z; cbn [fst Port.trace Port.is_open];
    rewrite ?orderly_app, ?held_after_app, Ho, <- Hh;
    destruct (Port.is_open s); cbn; auto.
Qed.

Lemma port_inv_close s :
  port_inv os_open s -> port_inv os_open (fst (Port.task_close s)).
Proof.
  intros [Ho Hh]. unfold port_inv, Port.task_close, Port.close.
  destruct (Port.is_open s) eqn:E; cbn [fst Port.trace Port.is_open].
  - rewrite orderly_app, held_after_app, Ho, <- Hh. cbn. auto.
  - split; [exact Ho | rewrite E; exact Hh].
Qed.

End PortInvariant.

(** X13: the port is used in an orderly way.  Whatever sequence of
    [connect] and [close] the receive task is asked for, starting from a
    fresh port object, the device is never asked to open while it is held
    and never asked to close while it is not, so a device that opened is
    always released before the next attempt; and [is_open] tells whether
    the device is held. *)
Theorem X13_port_requests_orderly
    (os_open : string -> Z -> bool) (ops : list port_op) :
  let s := run_port_ops os_open ops Port.Serial_init in
  orderly os_open (Port.trace s) false = true
  /\ Port.is_open s = held_after os_open (Port.trace s) false.
Proof.
  assert (H : forall s0, port_inv os_open s0 ->
                         port_inv os_open (run_port_ops os_open ops s0)).
  { induction ops as [|[name baud|] r IH]; intros s0 H0.
    - exact H0.
    - cbn [run_port_ops]. apply IH, port_inv_connect, H0.
    - cbn [run_port_ops]. apply IH, port_inv_close, H0. }
  apply H. split; reflexivity.
Qed.

(** * The window *)

Section WindowFacts.

Lemma ports_eqb_eq a b : Window.ports_eqb a b = true <-> a = b.
Proof.
  revert b. induction a as [|x a IH]; intros [|y b]; cbn; split; intros H;
    try reflexivity; try discriminate.
  - apply andb_prop in H. destruct H as [H1 H2].
    apply String.eqb_eq in H1. apply IH in H2. now subst.
  - injection H as -> ->. rewrite String.eqb_refl. cbn. now apply IH.
Qed.

Lemma fold_snoc_map (A B : Type) (f : A -> B) (l : list A) (acc : list B) :
  fold_left (fun acc x => acc ++ [f x]) l acc = acc ++ map f l.
Proof.
  revert acc. induction l as [|x l IH]; intros acc; cbn.
  - now rewrite app_nil_r.
  - rewrite IH, <- app_assoc. reflexivity.
Qed.

(** The names are those of the enumeration, in its order, and the list is
    never empty. *)
Lemma port_names_spec serial_list :
  Window.port_names serial_list
  = match serial_list with
    | [] => [EmptyString]
    | _ => map (fun e => fst (fst e)) serial_list
    end
  /\ Window.port_names serial_list <> [].
Proof.
  destruct serial_list as [|e l]; [split; [reflexivity | discriminate]|].
  unfold Window.port_names. rewrite fold_snoc_map. cbn. split;
    [reflexivity | discriminate].
Qed.

Lemma fold_snoc_id (A : Type) (l : list A) :
  fold_left (fun menu p => menu ++ [p]) l [] = l.
Proof.
  rewrite (fold_snoc_map A A (fun x => x) l []). cbn. apply map_id.
Qed.

(** A refresh in one piece. *)
Lemma refresh_spec serial_list w :
  let names := Window.port_names serial_list in
  let lost := Window.connected w
              && negb (Window.port_in (Window.port w) names) in
  Window.refresh_serial_list serial_list w
  = {| Window.connected := if lost then false else Window.connected w;
       Window.port := if lost then EmptyString else Window.port w;
       Window.available_ports := names;
       Window.var_port := if lost then EmptyString else Window.var_port w;
       Window.menu_port :=
         if Window.ports_eqb names (Window.available_ports w)
         then Window.menu_port w else names;
       Window.ser := Window.ser w |}.
Proof.
  intros names lost.
  destruct (port_names_spec serial_list) as [_ Hne]. fold names in Hne.
  unfold Window.refresh_serial_list. fold names. fold lost.
  destruct w as [c p av vp mp s].
  cbn [Window.connected Window.port Window.available_ports Window.var_port
       Window.menu_port Window.ser] in *.
  destruct lost;
    cbn [Window.connected Window.port Window.available_ports Window.var_port
         Window.menu_port Window.ser];
    destruct (Window.ports_eqb names av) eqn:Eeq; cbn [negb];
    try (apply ports_eqb_eq in Eeq; subst av; reflexivity);
    (destruct names as [|n0 ns]; [congruence|]);
    rewrite fold_snoc_id; reflexivity.
Qed.

End WindowFacts.

(** X14: a click on Connect with an integer rate that is not negative
    and a port selected.  [self.port] becomes the selected port, the port
    object is closed and asked once to open that port at that rate, and
    [self.connected] tells whether it opened: afterwards [connected] and
    the port object's [is_open] agree. *)
Theorem X14_click_connects
    (os_open : string -> Z -> bool) (rate : Z) (w : Window.Window) :
  (0 <= rate)%Z ->
  Window.var_port w <> EmptyString ->
  let w' := fst (Window.on_connect_clicked os_open (Some rate) w) in
  snd (Window.on_connect_clicked os_open (Some rate) w) = Ok tt
  /\ Window.port w' = Window.var_port w
  /\ Window.connected w' = os_open (Window.var_port w) rate
  /\ Port.is_open (Window.ser w') = Window.connected w'
  /\ Window.ser w'
     = fst (Port.connect os_open (Window.var_port w) rate (Window.ser w))
  /\ Window.available_ports w' = Window.available_ports w
  /\ Window.var_port w' = Window.var_port w.
Proof.
  intros Hr Hp. destruct w as [c p av vp mp s].
  cbn [Window.var_port] in *.
  unfold Window.on_connect_clicked, bind, modify, gets, pass, ret.
  cbn [Window.port Window.var_port Window.ser Window.connected
       Window.available_ports Window.menu_port].
  destruct (String.eqb_spec vp EmptyString) as [E|E]; [contradiction|].
  rewrite connect_spec.
  destruct (Z.ltb_spec rate 0) as [Hlt|_]; [lia|].
  cbn [fst snd Window.port Window.var_port Window.ser Window.connected
       Window.available_ports Port.is_open].
  destruct (os_open vp rate) eqn:Eo; repeat split;
    rewrite connect_spec, Eo;
    (destruct (Z.ltb_spec rate 0) as [Hlt|_]; [lia | reflexivity]).
Qed.

Lemma X14_witness :
  let os := fun (name : string) (_ : Z) => String.eqb name "COM3" in
  let w := Window.Window_init [("COM3", "USB Serial", "hw")]%string in
  let w' := fst (Window.on_connect_clicked os (Some 230400%Z) w) in
  snd (Window.on_connect_clicked os (Some 230400%Z) w) = Ok tt
  /\ Window.port w' = Window.var_port w
  /\ Window.connected w' = os (Window.var_port w) 230400%Z
  /\ Port.is_open (Window.ser w') = Window.connected w'
  /\ Window.ser w'
     = fst (Port.connect os (Window.var_port w) 230400%Z (Window.ser w))
  /\ Window.available_ports w' = Window.available_ports w
  /\ Window.var_port w' = Window.var_port w.
Proof.
  intros os w.
  apply (X14_click_connects os 230400%Z w).
  - lia.
  - vm_compute. discriminate.
Defined.

(** X15: clicks on Connect that connect nothing.  When the rate entry
    holds no integer nothing changes.  When no port is selected only
    [self.port] changes (it becomes empty): the port object is not
    touched, so a connection that was open stays open, and [connected]
    keeps its value.  When the rate is negative the port object has been
    closed, [ValueError] leaves [connect] and the method, and [connected]
    keeps the value it had. *)
Theorem X15_click_without_connection
    (os_open : string -> Z -> bool) (w : Window.Window) :
  Window.on_connect_clicked os_open None w = (w, Ok tt)
  /\ (forall rate,
        Window.var_port w = EmptyString ->
        Window.on_connect_clicked os_open (Some rate) w
        = ({| Window.connected := Window.connected w;
              Window.port := EmptyString;
              Window.available_ports := Window.available_ports w;
              Window.var_port := Window.var_port w;
              Window.menu_port := Window.menu_port w;
              Window.ser := Window.ser w |}, Ok tt))
  /\ (forall rate,
        (rate < 0)%Z -> Window.var_port w <> EmptyString ->
        let r := Window.on_connect_clicked os_open (Some rate) w in
        snd r = Raise ValueError
        /\ Window.connected (fst r) = Window.connected w
        /\ Port.is_open (Window.ser (fst r)) = false).
Proof.
  destruct w as [c p av vp mp s]. split; [reflexivity|]. split.
  - intros rate E. cbn [Window.var_port] in E. subst vp. reflexivity.
  - intros rate Hr Hp. cbn [Window.var_port] in Hp.
    unfold Window.on_connect_clicked, bind, modify, gets, pass, ret.
    cbn [Window.port Window.var_port Window.ser Window.connected
         Window.available_ports Window.menu_port].
    destruct (String.eqb_spec vp EmptyString) as [E|E]; [contradiction|].
    rewrite connect_spec.
    destruct (Z.ltb_spec rate 0) as [_|Hge]; [|lia].
    repeat split.
Qed.

Lemma X15_witness :
  let os := fun (name : string) (_ : Z) => String.eqb name "COM3" in
  let w := fst (Window.on_connect_clicked os (Some 9600%Z)
                  (Window.Window_init [("COM3", "USB Serial", "hw")]%string)) in
  Window.connected w = true
  /\ snd (Window.on_connect_clicked os (Some (-1)%Z) w) = Raise ValueError
  /\ Window.connected (fst (Window.on_connect_clicked os (Some (-1)%Z) w)) = true
  /\ Port.is_open (Window.ser (fst (Window.on_connect_clicked os (Some (-1)%Z) w)))
     = false.
Proof.
  intros os w. split; [reflexivity|].
  destruct (X15_click_without_connection os w) as (_ & _ & H).
  apply (H (-1)%Z).
  - lia.
  - vm_compute. discriminate.
Defined.

(** X16: a refresh of the port list.  Afterwards [available_ports] is the
    list of names of the enumeration (the single name [""] when there is
    none), never empty; the port object is left as it is.  A window that
    was connected to a port that is no longer listed is marked
    disconnected, with [self.port] and the selection emptied; a window
    that is connected afterwards was connected before, to a listed port.
    Refreshing again with the same enumeration changes nothing. *)
Theorem X16_refresh_serial_list
    (serial_list : list (string * string * string)) (w : Window.Window) :
  let names := Window.port_names serial_list in
  let w' := Window.refresh_serial_list serial_list w in
  Window.available_ports w' = names
  /\ names <> []
  /\ Window.ser w' = Window.ser w
  /\ (Window.connected w = true /\ Window.port_in (Window.port w) names = false ->
      Window.connected w' = false /\ Window.port w' = EmptyString
      /\ Window.var_port w' = EmptyString)
  /\ (Window.connected w' = true ->
      Window.connected w = true /\ Window.port w' = Window.port w
      /\ Window.port_in (Window.port w') names = true)
  /\ Window.refresh_serial_list serial_list w' = w'.
Proof.
  intros names w'. subst w'.
  destruct (port_names_spec serial_list) as [_ Hne]. fold names in Hne.
  rewrite !refresh_spec. fold names.
  cbn [Window.connected Window.port Window.available_ports Window.var_port
       Window.menu_port Window.ser].
  rewrite (proj2 (ports_eqb_eq names names) eq_refl).
  destruct (Window.connected w) eqn:Ec; cbn [andb];
    [destruct (Window.port_in (Window.port w) names) eqn:Ein; cbn [negb]|];
    cbn [andb negb]; rewrite ?Ein; cbn [andb negb];
    repeat split; try reflexivity; try assumption; try discriminate;
    try (match goal with H : _ /\ _ |- _ => destruct H; discriminate end).
Qed.

Lemma X16_witness :
  let w := {| Window.connected := true; Window.port := "COM3"%string;
              Window.available_ports := ["COM3"; "COM4"]%string;
              Window.var_port := "COM3"%string;
              Window.menu_port := ["COM3"; "COM4"]%string;
              Window.ser := Port.Serial_init |} in
  let w' := Window.refresh_serial_list [("COM4", "USB", "hw")]%string w in
  Window.connected w' = false /\ Window.port w' = EmptyString
  /\ Window.var_port w' = EmptyString.
Proof.
  intros w w'.
  destruct (X16_refresh_serial_list [("COM4", "USB", "hw")]%string w)
    as (_ & _ & _ & H & _).
  apply H. split; reflexivity.
Defined.

Section SessionFacts.

Variable os_open : string -> Z -> bool.

Lemma win_inv_click var_baud w :
  match var_baud with Some rate => (0 <= rate)%Z | None => True end ->
  Window.win_inv w ->
  Window.win_inv (fst (Window.on_connect_clicked os_open var_baud w)).
Proof.
  intros Hr (Hc & Ha & Hmn). destruct w as [c p av vp mp s].
  unfold Window.win_inv in *.
  cbn [Window.connected Window.available_ports Window.menu_port Window.ser] in *.
  destruct var_baud as [rate|]; [|cbn; auto].
  unfold Window.on_connect_clicked, bind, modify, gets, pass, ret.
  cbn [Window.port Window.var_port Window.ser Window.connected
       Window.available_ports Window.menu_port].
  destruct (String.eqb vp EmptyString); [cbn; auto|].
  rewrite connect_spec.
  destruct (Z.ltb_spec rate 0) as [Hlt|_]; [lia|].
  cbn [fst Window.ser Window.connected Window.available_ports
       Window.menu_port Port.is_open].
  cbn. destruct (os_open vp rate); cbn; repeat split; auto; discriminate.
Qed.

Lemma win_inv_refresh serial_list w :
  Window.win_inv w ->
  Window.win_inv (Window.refresh_serial_list serial_list w).
Proof.
  intros (Hc & Ha & Hmn). rewrite refresh_spec. unfold Window.win_inv.
  cbn [Window.connected Window.available_ports Window.menu_port Window.ser].
  destruct (port_names_spec serial_list) as [_ Hne].
  repeat split.
  - destruct (Window.connected w
              && negb (Window.port_in (Window.port w)
                         (Window.port_names serial_list)));
      [discriminate | exact Hc].
  - exact Hne.
  - destruct (Window.ports_eqb (Window.port_names serial_list)
                (Window.available_ports w)) eqn:E; [|reflexivity].
    apply ports_eqb_eq in E. rewrite E. exact Hmn.
Qed.

End SessionFacts.

(** X17: through any session of clicks on Connect (with no negative
    rate), selections in the port menu and refreshes of the port list,
    starting from the window as [__init__] leaves it: whenever
    [connected] is set the port object is open, the list of available
    ports is not empty, and the port menu shows exactly that list. *)
Theorem X17_session_invariant
    (os_open : string -> Z -> bool)
    (serial_list : list (string * string * string))
    (ops : list Window.win_op) :
  Window.rates_ok ops ->
  let w := Window.run_win_ops os_open ops (Window.Window_init serial_list) in
  (Window.connected w = true -> Port.is_open (Window.ser w) = true)
  /\ Window.available_ports w <> []
  /\ Window.menu_port w = Window.available_ports w.
Proof.
  intros Hok.
  assert (H : forall w0, Window.win_inv w0 ->
                         Window.win_inv (Window.run_win_ops os_open ops w0)).
  { induction Hok as [|o r Ho Hr IH]; intros w0 H0; [exact H0|].
    destruct o as [vb|name|l]; cbn [Window.run_win_ops]; apply IH.
    - apply win_inv_click; [destruct vb; [exact Ho | exact I] | exact H0].
    - destruct w0; exact H0.
    - apply win_inv_refresh, H0. }
  apply H. unfold Window.win_inv, Window.Window_init.
  cbn [Window.connected Window.available_ports Window.menu_port Window.ser].
  repeat split; [discriminate | apply port_names_spec].
Qed.

Lemma X17_witness :
  let os := fun (name : string) (_ : Z) => String.eqb name "COM3" in
  let ops := [Window.ClickConnect (Some 9600%Z);
              Window.Refresh [("COM4", "USB", "hw")]%string;
              Window.Select "COM4"%string;
              Window.ClickConnect (Some 115200%Z);
              Window.ClickConnect None] in
  let w := Window.run_win_ops os ops
             (Window.Window_init [("COM3", "USB", "hw")]%string) in
  (Window.connected w = true -> Port.is_open (Window.ser w) = true)
  /\ Window.available_ports w <> []
  /\ Window.menu_port w = Window.available_ports w.
Proof.
  intros os ops.
  apply (X17_session_invariant os [("COM3", "USB", "hw")]%string ops).
  unfold Window.rates_ok, ops. repeat constructor; lia.
Defined.

(** * Saving *)

Section Names.

Lemma clean_app a b2 :
  Window.clean (a ++ b2)%string = Window.clean a && Window.clean b2.
Proof.
  induction a as [|c a IH]; cbn; [reflexivity|].
  rewrite IH. now rewrite andb_assoc.
Qed.

Lemma sanitize_clean s : Window.clean (Window.sanitize s) = true.
Proof.
  induction s as [|c s IH]; cbn [Window.sanitize]; [reflexivity|].
  destruct (Window.char_in c Window.forbidden) eqn:E; [exact IH|].
  cbn [Window.clean]. now rewrite E, IH.
Qed.

Lemma sanitize_id s : Window.clean s = true -> Window.sanitize s = s.
Proof.
  induction s as [|c s IH]; cbn [Window.clean Window.sanitize]; [reflexivity|].
  intros H. apply andb_prop in H. destruct H as [H1 H2].
  apply negb_true_iff in H1. rewrite H1, IH by exact H2. reflexivity.
Qed.

Lemma sanitize_length s :
  String.length (Window.sanitize s) <= String.length s.
Proof.
  induction s as [|c s IH]; cbn [Window.sanitize String.length]; [lia|].
  destruct (Window.char_in c Window.forbidden); cbn [String.length]; lia.
Qed.

(** Removing the forbidden characters changes a name that has one. *)
Lemma sanitize_changes s : Window.clean s = false -> Window.sanitize s <> s.
Proof.
  intros H E. assert (Hc := sanitize_clean s). rewrite E in Hc. congruence.
Qed.

Lemma clean_substring s : forall n m,
  Window.clean s = true -> Window.clean (substring n m s) = true.
Proof.
  induction s as [|c s IH]; intros n m H.
  - destruct n, m; reflexivity.
  - cbn [Window.clean] in H. apply andb_prop in H. destruct H as [H1 H2].
    destruct n as [|n]; destruct m as [|m]; cbn [substring Window.clean];
      try reflexivity.
    + now rewrite H1, IH.
    + now apply IH.
    + now apply IH.
Qed.

Lemma clean_make_filename label uid :
  Window.clean (Window.make_filename label uid)
  = Window.clean label && Window.clean uid.
Proof.
  unfold Window.make_filename.
  destruct (String.eqb_spec label EmptyString) as [->|_].
  - rewrite clean_app. cbn. now rewrite andb_true_r.
  - rewrite !clean_app. cbn. now rewrite andb_true_r.
Qed.

End Names.

Section SaveFacts.

Variable save_ok : string -> Image -> bool.

(** The name the loop settles on comes from one of the uuids and does not
    exist. *)
Lemma pick_filename_spec label uuids d f :
  Window.pick_filename label uuids d = Some f ->
  exists u, In u uuids
            /\ f = Window.make_filename label (Window.last_chars 12 u)
            /\ Window.path_exists f d = false.
Proof.
  induction uuids as [|u r IH]; cbn [Window.pick_filename]; [discriminate|].
  destruct (Window.path_exists
              (Window.make_filename label (Window.last_chars 12 u)) d) eqn:E;
    cbn [negb].
  - intros H. destruct (IH H) as (u' & Hin & Hf & He).
    exists u'. repeat split; [right; exact Hin | exact Hf | exact He].
  - intros [= <-]. exists u. repeat split; [left; reflexivity | exact E].
Qed.

(** When Save adds an entry, its name is the cleaned form of the name the
    loop settled on. *)
Lemma save_adds img label uuids d name im :
  Window.on_save_clicked save_ok true img label uuids d
  = Some ((name, im) :: d) ->
  exists u, In u uuids
            /\ name = Window.sanitize
                        (Window.make_filename label (Window.last_chars 12 u))
            /\ Window.path_exists
                 (Window.make_filename label (Window.last_chars 12 u)) d = false.
Proof.
  unfold Window.on_save_clicked.
  destruct (Window.pick_filename label uuids d) as [f|] eqn:Ep; [|discriminate].
  destruct (pick_filename_spec label uuids d f Ep) as (u & Hin & -> & He).
  assert (Hself : forall (x : string * Image) l, x :: l <> l).
  { intros x l E. apply (f_equal (@length _)) in E. cbn in E. lia. }
  destruct img as [im0|]; [|intros [= E]; symmetry in E; now apply Hself in E].
  destruct (save_ok _ im0).
  - intros [= <- <-]. exists u. repeat split; assumption.
  - intros [= E]. symmetry in E. now apply Hself in E.
Qed.

End SaveFacts.

(** X18: what Save writes.  When [on_save_clicked] ends, the directory is
    unchanged or holds one more entry: the window was connected, the
    content is [self.img], and the name has no character of
    [\/:*?<>|]; it is the cleaned form of a name built from the label and
    the last 12 characters of one of the uuids, a name that did not exist
    before it was cleaned.  Without a connection nothing is written. *)
Theorem X18_save_writes
    (save_ok : string -> Image -> bool) (is_connected : bool)
    (img : option Image) (label : string) (uuids : list string)
    (d d' : Window.Disk) :
  Window.on_save_clicked save_ok is_connected img label uuids d = Some d' ->
  (is_connected = false -> d' = d)
  /\ (d' = d
      \/ exists u im,
           In u uuids
           /\ is_connected = true /\ img = Some im
           /\ let tested := Window.make_filename label (Window.last_chars 12 u) in
              d' = (Window.sanitize tested, im) :: d
              /\ Window.clean (Window.sanitize tested) = true
              /\ Window.path_exists tested d = false).
Proof.
  unfold Window.on_save_clicked. destruct is_connected.
  - destruct (Window.pick_filename label uuids d) as [f|] eqn:Ep; [|discriminate].
    destruct (pick_filename_spec label uuids d f Ep) as (u & Hin & -> & He).
    destruct img as [im|]; [|intros [= <-]; split; [discriminate | left; reflexivity]].
    destruct (save_ok _ im); intros [= <-]; (split; [discriminate|]).
    + right. exists u, im. repeat split; try assumption. apply sanitize_clean.
    + left. reflexivity.
  - intros [= <-]. split; [reflexivity | left; reflexivity].
Qed.

Lemma X18_witness :
  let d := [("cat.b8e0c7a1f3d2.png"%string, frame_A)] in
  exists d',
    Window.on_save_clicked (fun _ _ => true) true (Some frame_B) "c/at"
      ["123e4567-e89b-12d3-a456-b8e0c7a1f3d2"; "123e4567-e89b-12d3-a456-426614174000"]%string d
    = Some d'
    /\ (d' = d
        \/ exists u im,
             In u ["123e4567-e89b-12d3-a456-b8e0c7a1f3d2";
                   "123e4567-e89b-12d3-a456-426614174000"]%string
             /\ true = true /\ Some frame_B = Some im
             /\ let tested := Window.make_filename "c/at" (Window.last_chars 12 u) in
                d' = (Window.sanitize tested, im) :: d
                /\ Window.clean (Window.sanitize tested) = true
                /\ Window.path_exists tested d = false).
Proof.
  intros d. eexists. split; [reflexivity|].
  eapply (X18_save_writes (fun _ _ => true) true (Some frame_B) "c/at"
            ["123e4567-e89b-12d3-a456-b8e0c7a1f3d2";
             "123e4567-e89b-12d3-a456-426614174000"]%string d).
  reflexivity.
Defined.

(** X19: a label without forbidden characters gives a new file.  With
    such a label and uuids as [uuid4] prints them (no forbidden character
    either), the name written is the name that was tested, so the file
    did not exist before: nothing is written over. *)
Theorem X19_clean_label_new_file
    (save_ok : string -> Image -> bool) (img : option Image)
    (label : string) (uuids : list string) (d : Window.Disk)
    (name : string) (im : Image) :
  Window.clean label = true ->
  Forall (fun u => Window.clean u = true) uuids ->
  Window.on_save_clicked save_ok true img label uuids d
  = Some ((name, im) :: d) ->
  Window.path_exists name d = false
  /\ exists u, In u uuids
               /\ name = Window.make_filename label (Window.last_chars 12 u).
Proof.
  intros Hl Hu Hs.
  destruct (save_adds save_ok img label uuids d name im Hs)
    as (u & Hin & Hname & He).
  rewrite Forall_forall in Hu.
  assert (Hc : Window.clean
                 (Window.make_filename label (Window.last_chars 12 u)) = true).
  { rewrite clean_make_filename, Hl. cbn [andb].
    apply clean_substring, Hu, Hin. }
  rewrite (sanitize_id _ Hc) in Hname. subst name.
  split; [exact He | exists u; split; [exact Hin | reflexivity]].
Qed.

Lemma X19_witness :
  Window.path_exists "cat.426614174000.png" [] = false
  /\ exists u, In u ["123e4567-e89b-12d3-a456-426614174000"%string]
               /\ "cat.426614174000.png"%string
                  = Window.make_filename "cat" (Window.last_chars 12 u).
Proof.
  apply (X19_clean_label_new_file (fun _ _ => true) (Some frame_A) "cat"
           ["123e4567-e89b-12d3-a456-426614174000"%string] []
           "cat.426614174000.png" frame_A).
  - reflexivity.
  - repeat constructor.
  - reflexivity.
Defined.

(** X20: a label with a forbidden character can make Save write over a
    file.  The name is tested for existence before it is cleaned: with
    such a label the cleaned name differs from the tested one, and when
    the directory holds a file with the cleaned name, that file is
    replaced. *)
Theorem X20_unclean_label_overwrites
    (save_ok : string -> Image -> bool) (label u : string) (im old : Image) :
  let tested := Window.make_filename label (Window.last_chars 12 u) in
  let name := Window.sanitize tested in
  Window.clean label = false ->
  save_ok name im = true ->
  name <> tested
  /\ Window.on_save_clicked save_ok true (Some im) label [u] [(name, old)]
     = Some [(name, im); (name, old)].
Proof.
  intros tested name Hl Hs.
  assert (Hne : name <> tested).
  { apply sanitize_changes. unfold tested.
    rewrite clean_make_filename, Hl. reflexivity. }
  split; [exact Hne|].
  unfold Window.on_save_clicked, Window.pick_filename, Window.path_exists.
  fold tested. cbn [existsb fst orb].
  destruct (String.eqb_spec tested name) as [E|_]; [congruence|].
  cbn [orb negb]. fold name. rewrite Hs. reflexivity.
Qed.

Lemma X20_witness :
  Window.sanitize (Window.make_filename "c/at" "426614174000")
  <> Window.make_filename "c/at" "426614174000"
  /\ Window.on_save_clicked (fun _ _ => true) true (Some frame_B) "c/at"
       ["123e4567-e89b-12d3-a456-426614174000"%string]
       [("cat.426614174000.png"%string, frame_A)]
     = Some [("cat.426614174000.png"%string, frame_B);
             ("cat.426614174000.png"%string, frame_A)].
Proof.
  apply (X20_unclean_label_overwrites (fun _ _ => true) "c/at"
           "123e4567-e89b-12d3-a456-426614174000" frame_B frame_A);
    reflexivity.
Defined.
